(** * golang_music_player: loader, progress bar and library search

    A shallow embedding of
      - [loader/loader.go]                      ([LoadTracks]),
      - [internal/ui/components/progress.go]    ([HandleClick], [View],
                                                 [formatDuration]),
      - [internal/ui/views/library.go]          ([filterTracks]),
    together with the parts of the Go standard library these functions call
    ([filepath.WalkDir], [filepath.Join], [filepath.Clean], [filepath.Ext],
    [strings.Contains], [strings.Repeat], [time.Duration.Round], [float64]
    arithmetic).  [strings.ToLower] is modelled on ASCII text for the
    extension test of the loader and is a parameter of the library view. *)

From Stdlib Require Import String Ascii List Bool Arith ZArith QArith Qabs Qround Qpower.
From Stdlib Require Import SpecFloat Lia Lqa.
Import ListNotations.

Set Implicit Arguments.
Set Warnings "-register-all".

(* ================================================================== *)
(** * Go strings *)

Module strings.
Local Open Scope string_scope.

(** [strings.ToLower] on ASCII text, its fast path: ['A'..'Z'] go to
    ['a'..'z'], byte by byte.  Go lowers every Unicode letter; this byte
    map is used for the extension test of the loader only, where it
    decides the comparison with [".mp3"], [".flac"] and [".wav"] as Go's
    function does: Go lowers a string with a byte outside ASCII to a
    string that has one too, or has an [i] (from U+0130) or a [k] (from
    U+212A) in its place, hence to none of the three.  The library view
    takes [strings.ToLower] as a parameter instead. *)
Definition lower_byte (c : ascii) : ascii :=
  let n := nat_of_ascii c in
  if (65 <=? n)%nat && (n <=? 90)%nat then ascii_of_nat (n + 32) else c.

Fixpoint ToLower (s : string) : string :=
  match s with
  | EmptyString => EmptyString
  | String c s' => String (lower_byte c) (ToLower s')
  end.

(** [strings.Contains(s, substr)]: [substr] occurs in [s] at some offset. *)
Fixpoint Contains (s substr : string) : bool :=
  if prefix substr s then true
  else match s with
       | EmptyString => false
       | String _ s' => Contains s' substr
       end.
End strings.

(* ================================================================== *)
(** * path/filepath *)

Module filepath.
Local Open Scope string_scope.

Definition IsPathSeparator (c : ascii) : bool := Ascii.eqb c "/"%char.

(** [Ext]: the loop runs [i] from [len(path)-1] down to [0], stops at a
    separator, and returns [path[i:]] at the first dot it meets.  The
    argument [n] is [i + 1]. *)
Fixpoint ext_from (path : string) (n : nat) : string :=
  match n with
  | O => ""
  | S i =>
      match get i path with
      | None => ""
      | Some c =>
          if IsPathSeparator c then ""
          else if Ascii.eqb c "."%char
               then substring i (String.length path - i) path
               else ext_from path i
      end
  end.

Definition Ext (path : string) : string := ext_from path (String.length path).

(** The path elements [Clean] scans: the runs of bytes between
    separators, empty ones included. *)
Fixpoint elements (path : string) : list string :=
  match path with
  | EmptyString => [""]
  | String c rest =>
      if IsPathSeparator c then "" :: elements rest
      else match elements rest with
           | e :: es => String c e :: es
           | [] => [String c ""]
           end
  end.

(** One turn of the loop of [Clean]; [out] holds the elements written so
    far, the last one first.  An empty element and [.] are dropped; [..]
    removes the element before it, unless there is none to remove
    ([out.w == dotdot]: nothing written, or leading [..]s only), where it
    is dropped in a rooted path and written otherwise; any other element
    is written. *)
Definition clean_step (rooted : bool) (out : list string) (e : string) : list string :=
  if String.eqb e "" || String.eqb e "." then out
  else if String.eqb e ".." then
    match out with
    | top :: below => if String.eqb top ".." then e :: out else below
    | [] => if rooted then [] else [e]
    end
  else e :: out.

Definition is_rooted (path : string) : bool :=
  match path with
  | EmptyString => false
  | String c _ => IsPathSeparator c
  end.

(** The elements [Clean] keeps, first one first. *)
Definition kept (path : string) : list string :=
  rev (fold_left (clean_step (is_rooted path)) (elements path) []).

(** The path [Clean] writes: the elements joined by single separators,
    after the leading separator of a rooted path; [.] when that is empty. *)
Definition written (rooted : bool) (elems : list string) : string :=
  let body := String.concat "/" elems in
  if rooted then "/" ++ body
  else if String.eqb body "" then "." else body.

(** [Clean], on a system whose separator is [/] and whose paths have no
    volume name. *)
Definition Clean (path : string) : string :=
  if String.eqb path "" then "."
  else written (is_rooted path) (kept path).

(** [Join(dir, name)]: empty arguments are ignored, the others are joined
    by a separator and the result is cleaned. *)
Definition Join (dir name : string) : string :=
  if String.eqb dir "" then
    if String.eqb name "" then "" else Clean name
  else Clean (dir ++ "/" ++ name).

(** Errors.  [SkipDir] and [SkipAll] are the two sentinels a callback may
    return; the operating system reports [OsError]s only. *)
Definition oserror := string.

Inductive error :=
| SkipDir
| SkipAll
| OsError (e : oserror).

Definition is_SkipDir (e : error) : bool :=
  match e with SkipDir => true | _ => false end.

Definition is_SkipAll (e : error) : bool :=
  match e with SkipAll => true | _ => false end.

Record DirEntry := { Name : string; IsDir : bool }.

(** The file system below one path: a non-directory entry (regular file,
    symlink, device, ...) or a directory together with what [os.ReadDir]
    returns on it, the entries it could read and possibly an error. *)
Inductive node :=
| File (name : string)
| Dir (name : string) (entries : list node) (rderr : option oserror).

Definition entry (n : node) : DirEntry :=
  match n with
  | File name => {| Name := name; IsDir := false |}
  | Dir name _ _ => {| Name := name; IsDir := true |}
  end.

(** What [os.Lstat(root)] finds. *)
Definition fsys := (oserror + node)%type.

Section Walk.
(** The callback closes over mutable variables; [S] is their state. *)
Variable S : Type.

Definition WalkDirFunc :=
  string -> option DirEntry -> option error -> S -> S * option error.

Variable fn : WalkDirFunc.

(** [if err == SkipDir && d.IsDir() { err = nil }; return err] *)
Definition skipped (d : DirEntry) (e : error) : option error :=
  if is_SkipDir e && IsDir d then None else Some e.

(** The loop [for _, d1 := range dirs] of [walkDir], over the function
    it calls on each entry. *)
Section Entries.
Variable walk : string -> node -> S -> S * option error.
Variable path : string.

Fixpoint walk_entries (ds : list node) (s : S) : S * option error :=
  match ds with
  | [] => (s, None)
  | d1 :: rest =>
      let '(s', err1) := walk (Join path (Name (entry d1))) d1 s in
      match err1 with
      | None => walk_entries rest s'
      | Some e => if is_SkipDir e then (s', None) else (s', Some e)
      end
  end.
End Entries.

Fixpoint walkDir (path : string) (n : node) (s : S) : S * option error :=
  let d := entry n in
  let '(s1, err) := fn path (Some d) None s in
  match err with
  | Some e => (s1, skipped d e)
  | None =>
      match n with
      | File _ => (s1, None)
      | Dir _ dirs rderr =>
          match rderr with
          | None => walk_entries walkDir path dirs s1
          | Some e =>
              (* second call, to report the ReadDir error *)
              let '(s2, err2) := fn path (Some d) (Some (OsError e)) s1 in
              match err2 with
              | Some e2 => (s2, skipped d e2)
              | None => walk_entries walkDir path dirs s2
              end
          end
      end
  end.

Definition WalkDir (fs : fsys) (root : string) (s : S) : S * option error :=
  let '(s', err) :=
    match fs with
    | inl e => fn root None (Some (OsError e)) s
    | inr n => walkDir root n s
    end in
  match err with
  | Some e => if is_SkipDir e || is_SkipAll e then (s', None) else (s', Some e)
  | None => (s', None)
  end.
End Walk.
End filepath.

(* ================================================================== *)
(** * loader/loader.go *)

Module loader.
Import filepath.
Local Open Scope string_scope.

(** [ext == ".mp3" || ext == ".flac" || ext == ".wav"] on the lowered
    extension. *)
Definition audio_ext (path : string) : bool :=
  let ext := strings.ToLower (Ext path) in
  String.eqb ext ".mp3" || String.eqb ext ".flac" || String.eqb ext ".wav".

(** The closure passed to [WalkDir]; its state is the slice [files]. *)
Definition visit : WalkDirFunc (list string) :=
  fun path d err files =>
    match err with
    | Some e => (files, Some e)
    | None =>
        match d with
        | None => (files, None)    (* unreachable: d is nil only with an error *)
        | Some d =>
            if IsDir d then (files, None)
            else if audio_ext path then ((files ++ [path])%list, None)
            else (files, None)
        end
    end.

Definition LoadTracks (fs : fsys) (root : string) : list string * option error :=
  WalkDir visit fs root [].

(** ** Reference notions for the walk *)

(** The same closure, instrumented: next to [files] it keeps the log of
    the entries it is handed without an error, in call order. *)
Definition visit_logged : WalkDirFunc (list string * list (string * DirEntry)) :=
  fun path d err st =>
    let '(files', r) := visit path d err (fst st) in
    ((files',
      match d, err with
      | Some d, None => (snd st ++ [(path, d)])%list
      | _, _ => snd st
      end), r).

(** The entries reached by the walk that [LoadTracks] performs. *)
Definition reached (fs : fsys) (root : string) : list (string * DirEntry) :=
  snd (fst (WalkDir visit_logged fs root ([], []))).

(** The test the closure applies to an entry it is handed. *)
Definition wanted (pd : string * DirEntry) : bool :=
  negb (IsDir (snd pd)) && audio_ext (fst pd).

(** Every entry below a node with its path, parents before children and
    siblings in [ReadDir] order, at any depth. *)
Fixpoint entries_of (path : string) (n : node) : list (string * DirEntry) :=
  (path, entry n) ::
  match n with
  | File _ => []
  | Dir _ dirs _ =>
      flat_map (fun d1 => entries_of (Join path (Name (entry d1))) d1) dirs
  end.

Definition all_entries (fs : fsys) (root : string) : list (string * DirEntry) :=
  match fs with
  | inl _ => []
  | inr n => entries_of root n
  end.

(** The audio files present under the root, whether or not a walk gets
    to them. *)
Definition audio_files (fs : fsys) (root : string) : list string :=
  map fst (filter wanted (all_entries fs root)).

(** The first failure in walk order: a directory's [ReadDir] error comes
    before anything below it. *)
Section First.
Variable err_of : node -> option oserror.

Fixpoint first_of (ds : list node) : option oserror :=
  match ds with
  | [] => None
  | d1 :: rest =>
      match err_of d1 with
      | Some e => Some e
      | None => first_of rest
      end
  end.
End First.

Fixpoint node_error (n : node) : option oserror :=
  match n with
  | File _ => None
  | Dir _ dirs rderr =>
      match rderr with
      | Some e => Some e
      | None => first_of node_error dirs
      end
  end.

Definition first_error (fs : fsys) : option oserror :=
  match fs with
  | inl e => Some e
  | inr n => node_error n
  end.

(** The error [os.ReadDir] reports on an entry itself, if any. *)
Definition readdir_error (n : node) : option oserror :=
  match n with
  | File _ => None
  | Dir _ _ rderr => rderr
  end.

(** [entries_of], each entry with the error of its own. *)
Fixpoint listing (path : string) (n : node) : list (string * DirEntry * option oserror) :=
  (path, entry n, readdir_error n) ::
  match n with
  | File _ => []
  | Dir _ dirs _ =>
      flat_map (fun d1 => listing (Join path (Name (entry d1))) d1) dirs
  end.

(** The entries of a list up to the first one with an error, that one
    included, and the error it has. *)
Fixpoint until_failure (l : list (string * DirEntry * option oserror))
    : list (string * DirEntry) :=
  match l with
  | [] => []
  | (pd, None) :: rest => pd :: until_failure rest
  | (pd, Some _) :: _ => [pd]
  end.

Fixpoint first_failure (l : list (string * DirEntry * option oserror)) : option oserror :=
  match l with
  | [] => None
  | (_, None) :: rest => first_failure rest
  | (_, Some e) :: _ => Some e
  end.

(** The entries under the root, in walk order, up to the first one that
    fails; none when the root itself cannot be read. *)
Definition walked (fs : fsys) (root : string) : list (string * DirEntry) :=
  match fs with
  | inl _ => []
  | inr n => until_failure (listing root n)
  end.

(** What one run of the walk from a node does, to the closure's slice and
    to the instrumented log at once. *)
Definition walk_fact (walk : string -> node -> list string -> list string * option error)
    (walkl : string -> node -> list string * list (string * DirEntry) ->
             list string * list (string * DirEntry) * option error)
    (err_of : option oserror) (all : list (string * DirEntry))
    (path : string) (n : node) : Prop :=
  forall files log, exists l,
    walk path n files
      = ((files ++ map fst (filter wanted l))%list, option_map OsError err_of)
    /\ walkl path n (files, log)
      = ((files ++ map fst (filter wanted l), log ++ l)%list, option_map OsError err_of)
    /\ (exists rest, all = (l ++ rest)%list)
    /\ (err_of = None -> l = all).

(** ** Reference notions for the shape of a tree *)

Definition node_name (n : node) : string := Name (entry n).

(** No path separator in a name. *)
Fixpoint slash_free (s : string) : bool :=
  match s with
  | EmptyString => true
  | String c s' => negb (IsPathSeparator c) && slash_free s'
  end.

(** A name as [os.ReadDir] returns them: not empty, without a separator,
    and neither [.] nor [..]. *)
Definition element (name : string) : bool :=
  negb (String.eqb name "") && slash_free name
  && negb (String.eqb name ".") && negb (String.eqb name "..").

(** No string of the list occurs twice. *)
Fixpoint distinct (l : list string) : bool :=
  match l with
  | [] => true
  | x :: rest => negb (existsb (String.eqb x) rest) && distinct rest
  end.

(** A tree as a file system presents it: the names of the entries of a
    directory are distinct path elements. *)
Fixpoint well_formed (n : node) : bool :=
  match n with
  | File _ => true
  | Dir _ dirs _ =>
      distinct (map node_name dirs)
      && forallb (fun d => element (node_name d) && well_formed d) dirs
  end.

(** The elements [Clean] has written, the last one first: names, above
    the [..]s that lead a path that is not rooted. *)
Inductive written_ok (rooted : bool) : list string -> Prop :=
| written_none : written_ok rooted []
| written_dotdot out :
    rooted = false -> Forall (eq "..") out -> written_ok rooted (".." :: out)
| written_name e out :
    element e = true -> written_ok rooted out -> written_ok rooted (e :: out).

(** ** Reference notions for extensions *)

(** Neither a path separator nor a dot. *)
Definition plain (c : ascii) : bool :=
  negb (IsPathSeparator c) && negb (Ascii.eqb c "."%char).

Fixpoint plain_string (s : string) : bool :=
  match s with
  | EmptyString => true
  | String c s' => plain c && plain_string s'
  end.
End loader.

(* ================================================================== *)
(** * Machine integers *)

(** Go's [int] (64 bits on the platforms the player is built for) and
    [int64], hence [time.Duration]: values are [Z] in
    [[min_int, max_int]] and arithmetic wraps around. *)
Module int64.
Local Open Scope Z_scope.

Definition min_int : Z := - 2 ^ 63.
Definition max_int : Z := 2 ^ 63 - 1.

Definition in_range (z : Z) : Prop := min_int <= z <= max_int.

Definition wrap (z : Z) : Z := (z + 2 ^ 63) mod 2 ^ 64 - 2 ^ 63.

Definition add (a b : Z) : Z := wrap (a + b).
Definition sub (a b : Z) : Z := wrap (a - b).
Definition neg (a : Z) : Z := wrap (- a).

(** [uint64(x)] *)
Definition to_uint64 (z : Z) : Z := z mod 2 ^ 64.
End int64.

(* ================================================================== *)
(** * float64 *)

(** IEEE 754 binary64, restricted to its finite values, which are rational
    numbers: every operation returns the exact result rounded to nearest,
    ties to even, on 53 significant bits (with the gradual underflow of the
    format: no unit in the last place below [2^-1074]).  Overflow to
    infinity needs a magnitude of [2^1024]; the values below are quotients
    and products of 64-bit integers and stay under [2^127].  A division by
    zero leaves the finite values ([NaN] or an infinity) and is [None]. *)
Module float64.
Local Open Scope Q_scope.

Definition float64 := Q.

(** [ilog2 x] is the integer [e] with [2^e <= x < 2^(e+1)], for [0 < x]. *)
Definition ilog2 (x : Q) : Z :=
  let l := (Z.log2 (Qnum x) - Z.log2 (Zpos (Qden x)))%Z in
  if Qle_bool (2 ^ l) x then l else (l - 1)%Z.

(** Exponent of the unit in the last place of the binade of [x]. *)
Definition ulp_exp (x : Q) : Z := Z.max (ilog2 (Qabs x) - 52) (-1074).

(** Nearest integer, ties to even. *)
Definition rne (x : Q) : Z :=
  let f := Qfloor x in
  match Qcompare (x - inject_Z f) (1 # 2) with
  | Lt => f
  | Gt => (f + 1)%Z
  | Eq => if Z.even f then f else (f + 1)%Z
  end.

Definition round (x : Q) : float64 :=
  if Qeq_bool x 0 then 0
  else let k := ulp_exp x in inject_Z (rne (x / 2 ^ k)) * 2 ^ k.

(** [float64(z)] *)
Definition of_int (z : Z) : float64 := round (inject_Z z).

Definition mul (x y : float64) : float64 := round (x * y).

Definition div (x y : float64) : option float64 :=
  if Qeq_bool y 0 then None else Some (round (x / y)).

(** [x > y] *)
Definition gt (x y : float64) : bool := negb (Qle_bool x y).

(** Truncation toward zero. *)
Definition trunc (x : Q) : Z := if Qle_bool 0 x then Qfloor x else Qceiling x.

(** [int64(x)] and [int(x)].  A value outside the integer range converts
    to an implementation-dependent result; amd64 yields the smallest
    integer. *)
Definition to_int64 (x : float64) : Z :=
  let z := trunc x in
  if ((int64.min_int <=? z) && (z <=? int64.max_int))%Z then z else int64.min_int.

(** ** The Standard Library's binary64, for comparison *)

(** The rational value of a finite [spec_float]. *)
Definition ieee_value (x : spec_float) : option Q :=
  match x with
  | S754_zero _ => Some 0
  | S754_finite s m e =>
      Some ((if s then - (1) else 1) * inject_Z (Zpos m) * 2 ^ e)
  | _ => None
  end.

Definition ieee_of_int (z : Z) : spec_float := binary_normalize 53 1024 z 0 false.
Definition ieee_mul : spec_float -> spec_float -> spec_float := SFmul 53 1024.
Definition ieee_div : spec_float -> spec_float -> spec_float := SFdiv 53 1024.

(** [x] is the value of [y]. *)
Definition same_value (x : float64) (y : spec_float) : bool :=
  match ieee_value y with
  | Some q => Qeq_bool x q
  | None => false
  end.

(** The seek target of a click at [r] of [w] cells in a track of [t] ns,
    on both sides. *)
Definition seek_model (t r w : Z) : option float64 :=
  option_map (mul (of_int t)) (div (of_int r) (of_int w)).

Definition seek_ieee (t r w : Z) : spec_float :=
  ieee_mul (ieee_of_int t) (ieee_div (ieee_of_int r) (ieee_of_int w)).

Definition seek_agrees (t r w : Z) : bool :=
  match seek_model t r w with
  | Some x => same_value x (seek_ieee t r w)
  | None => false
  end.
End float64.

(* ================================================================== *)
(** * time *)

Module time.
Local Open Scope Z_scope.

(** A [Duration] is an [int64] count of nanoseconds. *)
Definition Duration := Z.

Definition Nanosecond : Duration := 1.
Definition Second : Duration := 1000000000.
Definition Minute : Duration := 60 * Second.

Definition minDuration : Duration := int64.min_int.
Definition maxDuration : Duration := int64.max_int.

(** [uint64(x)+uint64(x) < uint64(y)] *)
Definition lessThanHalf (x y : Duration) : bool :=
  (int64.to_uint64 x + int64.to_uint64 x) mod 2 ^ 64 <? int64.to_uint64 y.

(** [Duration.Round]: nearest multiple of [m], halfway values away from
    zero, saturating at the largest and smallest durations. *)
Definition Round (d m : Duration) : Duration :=
  if m <=? 0 then d
  else
    let r := Z.rem d m in
    if d <? 0 then
      let r := int64.neg r in
      if lessThanHalf r m then int64.add d r
      else
        let d1 := int64.add (int64.sub d m) r in
        if d1 <? d then d1 else minDuration
    else
      if lessThanHalf r m then int64.sub d r
      else
        let d1 := int64.sub (int64.add d m) r in
        if d1 >? d then d1 else maxDuration.
End time.

(* ================================================================== *)
(** * fmt *)

Module fmt.
Local Open Scope string_scope.

Definition digit (d : Z) : ascii := ascii_of_N (Z.to_N (48 + d)).

(** Decimal digits of a natural number, most significant first; [fuel]
    bounds the number of digits. *)
Fixpoint digits (fuel : nat) (n : Z) (acc : string) : string :=
  match fuel with
  | O => acc
  | S fuel' =>
      let acc' := String (digit (n mod 10)) acc in
      if (n <? 10)%Z then acc' else digits fuel' (n / 10)%Z acc'
  end.

Definition itoa (n : Z) : string := digits (S (Z.to_nat (Z.log2 n))) n "".

Fixpoint zeros (k : nat) : string :=
  match k with
  | O => ""
  | S k' => String "0"%char (zeros k')
  end.

(** The verb [%02d]: decimal, zero-padded to width 2; a minus sign counts
    in the width and the zeros come after it. *)
Definition pad02d (z : Z) : string :=
  let ds := itoa (Z.abs z) in
  if (z <? 0)%Z
  then "-" ++ zeros (1 - String.length ds) ++ ds
  else zeros (2 - String.length ds) ++ ds.

(** ** Reference notions for the output *)

(** Reading a string of decimal digits, leading zeros allowed, after the
    digits that make up [acc]. *)
Fixpoint read_from (acc : Z) (s : string) : option Z :=
  match s with
  | EmptyString => Some acc
  | String c s' =>
      let v := (Z.of_N (N_of_ascii c) - 48)%Z in
      if ((0 <=? v) && (v <=? 9))%Z then read_from (acc * 10 + v)%Z s' else None
  end.

Definition read_decimal (s : string) : option Z :=
  match s with
  | EmptyString => None
  | _ => read_from 0 s
  end.
End fmt.
(* ================================================================== *)
(** * internal/ui/components/progress.go *)

Module lipgloss.
(** A [Style] is used through its [Render] method only. *)
Definition Style := string -> string.
Definition Render (st : Style) (str : string) : string := st str.
End lipgloss.

Module components.
Import time.
Local Open Scope Z_scope.

Record ProgressBar := {
  Width : Z;
  Current : Duration;
  Total : Duration;
  BarChar : string;
  EmptyChar : string;
  ShowTime : bool;
  Style : lipgloss.Style;
  FilledStyle : lipgloss.Style;
  EmptyStyle : lipgloss.Style;
  HeadStyle : lipgloss.Style;
  (* layout info for click-to-seek (set during View) *)
  barWidth : Z;
  timeWidth : Z
}.

Definition set_layout (p : ProgressBar) (tw bw : Z) : ProgressBar :=
  {| Width := Width p; Current := Current p; Total := Total p;
     BarChar := BarChar p; EmptyChar := EmptyChar p; ShowTime := ShowTime p;
     Style := Style p; FilledStyle := FilledStyle p;
     EmptyStyle := EmptyStyle p; HeadStyle := HeadStyle p;
     barWidth := bw; timeWidth := tw |}.

(** [HandleClick]; [None] would be a quotient that is not a finite
    float. *)
Definition HandleClick (p : ProgressBar) (clickX barOffsetX : Z) : option Duration :=
  let relX := int64.sub clickX barOffsetX in
  let relX := if relX <? 0 then 0 else relX in
  if (barWidth p <=? 0) || (Total p <=? 0) then Some 0
  else
    let relX := if relX >? barWidth p then barWidth p else relX in
    match float64.div (float64.of_int relX) (float64.of_int (barWidth p)) with
    | None => None
    | Some percent =>
        Some (float64.to_int64 (float64.mul (float64.of_int (Total p)) percent))
    end.

(** [formatDuration] *)
Definition formatDuration (d : Duration) : string :=
  let d := Round d Second in
  let m := Z.quot d Minute in
  let s := Z.quot (Z.rem d Minute) Second in
  (fmt.pad02d m ++ ":" ++ fmt.pad02d s)%string.

(** [strings.Repeat]: panics ([None]) on a negative count and when the
    length of the result, [len(s) * count], overflows an [int].  These are
    the two panics of the function itself; the allocation of a result that
    fits an [int] is taken to succeed, the model having no bound on
    memory. *)
Definition Repeat (s : string) (count : Z) : option string :=
  if count <? 0 then None
  else if Z.of_nat (String.length s) * count >? int64.max_int then None
  else Some (String.concat "" (repeat s (Z.to_nat count))).

(** The seek head, U+25CF in UTF-8. *)
Definition head_glyph : string :=
  String (ascii_of_nat 226) (String (ascii_of_nat 151) (String (ascii_of_nat 143) "")).

(** The progress fraction of [View], clamped from above only. *)
Definition view_percent (p : ProgressBar) : option float64.float64 :=
  let percent :=
    if Total p >? 0
    then float64.div (float64.of_int (Current p)) (float64.of_int (Total p))
    else Some 0%Q in
  match percent with
  | None => None
  | Some percent => Some (if float64.gt percent 1%Q then 1%Q else percent)
  end.

(** The bar segments of [View]: [(barWidth, filled, empty)]. *)
Definition view_segments (p : ProgressBar) : option (Z * Z * Z) :=
  match view_percent p with
  | None => None
  | Some percent =>
      let bw := int64.sub (Width p) 14 in
      let bw := if bw <? 10 then 10 else bw in
      let headPos := float64.to_int64 (float64.mul (float64.of_int bw) percent) in
      let headPos := if headPos >=? bw then int64.sub bw 1 else headPos in
      let filled := headPos in
      let empty := int64.sub (int64.sub bw headPos) 1 in
      Some (bw, filled, empty)
  end.

(** [View] has a pointer receiver: it returns the bar with its layout
    fields set, next to the rendered string.  [None] is a panic. *)
Definition View (p : ProgressBar) : option (ProgressBar * string) :=
  match view_segments p with
  | None => None
  | Some (bw, filled, empty) =>
      let p' := set_layout p 14 bw in
      match Repeat (BarChar p) filled with
      | None => None
      | Some fb =>
          let filledBar := lipgloss.Render (FilledStyle p) fb in
          let head := lipgloss.Render (HeadStyle p) head_glyph in
          match Repeat (EmptyChar p) empty with
          | None => None
          | Some eb =>
              let emptyBar := lipgloss.Render (EmptyStyle p) eb in
              let sb := (filledBar ++ head ++ emptyBar)%string in
              let sb :=
                if ShowTime p
                then (sb ++ " " ++ formatDuration (Current p) ++ "/"
                         ++ formatDuration (Total p))%string
                else sb in
              Some (p', lipgloss.Render (Style p) sb)
          end
      end
  end.

(** ** Reference notions for the bar *)

(** The click offset after both clamps of [HandleClick]. *)
Definition clamped (p : ProgressBar) (clickX barOffsetX : Z) : Z :=
  Z.min (barWidth p) (Z.max 0 (int64.sub clickX barOffsetX)).

(** The glyphs of a bar, one string each: [filled] bar characters, the
    seek head, [empty] empty characters. *)
Definition bar_glyphs (p : ProgressBar) (filled empty : Z) : list string :=
  (repeat (BarChar p) (Z.to_nat filled) ++ [head_glyph]
     ++ repeat (EmptyChar p) (Z.to_nat empty))%list.

(** The time display that follows the bar. *)
Definition time_display (p : ProgressBar) : string :=
  if ShowTime p
  then (" " ++ formatDuration (Current p) ++ "/" ++ formatDuration (Total p))%string
  else ""%string.

(** ** The rest of the component *)

Section Constructor.
(** [lipgloss.NewStyle()] and the two style methods the constructor calls;
    a colour is known by its name. *)
Variable NewStyle : lipgloss.Style.
Variable Foreground : string -> lipgloss.Style -> lipgloss.Style.
Variable Bold : bool -> lipgloss.Style -> lipgloss.Style.

(** U+2501 and U+2500 in UTF-8. *)
Definition heavy_line : string :=
  String (ascii_of_nat 226) (String (ascii_of_nat 148) (String (ascii_of_nat 129) "")).
Definition light_line : string :=
  String (ascii_of_nat 226) (String (ascii_of_nat 148) (String (ascii_of_nat 128) "")).

(** [NewProgressBar]; the fields it does not name have their zero value. *)
Definition NewProgressBar (width : Z) : ProgressBar :=
  {| Width := width;
     Current := 0;
     Total := 0;
     BarChar := heavy_line;
     EmptyChar := light_line;
     ShowTime := true;
     Style := NewStyle;
     FilledStyle := Foreground "212" NewStyle;
     EmptyStyle := Foreground "240" NewStyle;
     HeadStyle := Bold true (Foreground "212" NewStyle);
     barWidth := 0;
     timeWidth := 0 |}.
End Constructor.

(** [SetProgress] *)
Definition SetProgress (p : ProgressBar) (current total : Duration) : ProgressBar :=
  {| Width := Width p; Current := current; Total := total;
     BarChar := BarChar p; EmptyChar := EmptyChar p; ShowTime := ShowTime p;
     Style := Style p; FilledStyle := FilledStyle p;
     EmptyStyle := EmptyStyle p; HeadStyle := HeadStyle p;
     barWidth := barWidth p; timeWidth := timeWidth p |}.

(** [BarWidth] *)
Definition BarWidth (p : ProgressBar) : Z := barWidth p.

(** The bar width [View] settles on for a given [Width]. *)
Definition layout_width (width : Z) : Z :=
  let bw := int64.sub width 14 in if bw <? 10 then 10 else bw.

(** The exact proportion a click asks for, in nanoseconds. *)
Definition seek_exact (p : ProgressBar) (clickX barOffsetX : Z) : Q :=
  (inject_Z (Total p) * inject_Z (clamped p clickX barOffsetX)
   / inject_Z (barWidth p))%Q.
End components.

(* ================================================================== *)
(** * internal/ui/views/library.go *)

Module api.
(** Modelled from the spec: the declaration of [api.Track] is outside the
    files at hand; the fields are those of the data model, "identity, file
    path, title, artist, album, duration".  A [*api.Track] of a track list
    is taken to be non-nil and is modelled by the record it points to. *)
Record Track := {
  ID : string;
  Path : string;
  Title : string;
  Artist : string;
  Album : string;
  Duration : time.Duration
}.
End api.

(** [tea.Msg], as far as [Update] looks at it: a key press, known by what
    its [String] method returns, or any other message. *)
Module tea.
Inductive Msg :=
| KeyMsg (key : string)
| OtherMsg.
End tea.

Module views.
Import api.
Local Open Scope string_scope.

Section Library.
(** [components.TrackList] and [components.SearchInput] are declared
    outside the files at hand; [filterTracks] touches a track list
    through [SetItems] only. *)
Variables TrackList SearchInput : Type.
Variable SetItems : TrackList -> list Track -> TrackList.

(** [strings.ToLower], which lowers every Unicode letter, is taken as
    given: the view is modelled for whatever it maps a string to. *)
Variable ToLower : string -> string.

Record LibraryView := {
  Width : Z;
  Height : Z;
  TrackList_ : TrackList;
  SearchBar : SearchInput;
  Searching : bool;
  AllTracks : list Track;
  BorderStyle : lipgloss.Style;
  TitleStyle : lipgloss.Style
}.

(** [v.TrackList.SetItems(items)] on the view [v]. *)
Definition set_items (v : LibraryView) (items : list Track) : LibraryView :=
  {| Width := Width v; Height := Height v;
     TrackList_ := SetItems (TrackList_ v) items;
     SearchBar := SearchBar v; Searching := Searching v;
     AllTracks := AllTracks v;
     BorderStyle := BorderStyle v; TitleStyle := TitleStyle v |}.

(** The condition of the loop body, [query] already lowered. *)
Definition matches (query : string) (track : Track) : bool :=
  strings.Contains (ToLower (Title track)) query
  || strings.Contains (ToLower (Artist track)) query
  || strings.Contains (ToLower (Album track)) query.

Definition filterTracks (v : LibraryView) (query : string) : LibraryView :=
  if String.eqb query "" then set_items v (AllTracks v)
  else
    let query := ToLower query in
    let filtered :=
      fold_left
        (fun filtered track =>
           if matches query track then (filtered ++ [track])%list else filtered)
        (AllTracks v) [] in
    set_items v filtered.
End Library.

(** ** Reference notions for the search *)

(** [query] occurs in [s] when case is ignored: the lowered query is a
    contiguous part of the lowered string. *)
Definition occurs_nocase (ToLower : string -> string) (query s : string) : Prop :=
  exists before after,
    ToLower s = before ++ ToLower query ++ after.

(** [l1] is [l2] with some elements left out, the others in their
    original order. *)
Inductive subsequence (A : Type) : list A -> list A -> Prop :=
| subseq_nil : subsequence [] []
| subseq_skip x l1 l2 : subsequence l1 l2 -> subsequence l1 (x :: l2)
| subseq_keep x l1 l2 : subsequence l1 l2 -> subsequence (x :: l1) (x :: l2).

(** ** The rest of the view: [SetTracks] and [Update] *)

Section Update.
Variables TrackList SearchInput : Type.
Variable SetItems : TrackList -> list Track -> TrackList.
Variable ToLower : string -> string.

(** The methods of [components.TrackList] and [components.SearchInput]
    that [Update] calls, and the field [Value] it reads; the commands the
    two [Update] methods return are dropped by the caller. *)
Variable UpdateList : TrackList -> tea.Msg -> TrackList.
Variable UpdateSearch : SearchInput -> tea.Msg -> SearchInput.
Variables Focus Blur : SearchInput -> SearchInput.
Variable Value : SearchInput -> string.

Let View := LibraryView TrackList SearchInput.

Definition with_searching (v : View) (b : bool) : View :=
  {| Width := Width v; Height := Height v; TrackList_ := TrackList_ v;
     SearchBar := SearchBar v; Searching := b; AllTracks := AllTracks v;
     BorderStyle := BorderStyle v; TitleStyle := TitleStyle v |}.

Definition with_search_bar (v : View) (sb : SearchInput) : View :=
  {| Width := Width v; Height := Height v; TrackList_ := TrackList_ v;
     SearchBar := sb; Searching := Searching v; AllTracks := AllTracks v;
     BorderStyle := BorderStyle v; TitleStyle := TitleStyle v |}.

Definition with_track_list (v : View) (tl : TrackList) : View :=
  {| Width := Width v; Height := Height v; TrackList_ := tl;
     SearchBar := SearchBar v; Searching := Searching v; AllTracks := AllTracks v;
     BorderStyle := BorderStyle v; TitleStyle := TitleStyle v |}.

(** [SetTracks] *)
Definition SetTracks (v : View) (tracks : list Track) : View :=
  {| Width := Width v; Height := Height v;
     TrackList_ := SetItems (TrackList_ v) tracks;
     SearchBar := SearchBar v; Searching := Searching v; AllTracks := tracks;
     BorderStyle := BorderStyle v; TitleStyle := TitleStyle v |}.

(** [Update]; the command it returns is always nil. *)
Definition Update (v : View) (msg : tea.Msg) : View :=
  match msg with
  | tea.KeyMsg key =>
      if Searching v then
        if String.eqb key "enter" || String.eqb key "esc" then
          let v := with_searching v false in
          let v := with_search_bar v (Blur (SearchBar v)) in
          (* filter tracks based on search *)
          if negb (String.eqb (Value (SearchBar v)) "")
          then filterTracks SetItems ToLower v (Value (SearchBar v))
          else set_items SetItems v (AllTracks v)
        else
          let v := with_search_bar v (UpdateSearch (SearchBar v) msg) in
          (* live filtering *)
          filterTracks SetItems ToLower v (Value (SearchBar v))
      else
        if String.eqb key "/" then
          let v := with_searching v true in
          with_search_bar v (Focus (SearchBar v))
        else with_track_list v (UpdateList (TrackList_ v) msg)
  | tea.OtherMsg => v
  end.
End Update.

(** The tracks a query selects from a list: all of them for the empty
    query, otherwise those with the lowered query in their lowered title,
    artist or album. *)
Definition selection (ToLower : string -> string) (query : string)
    (tracks : list Track) : list Track :=
  if String.eqb query "" then tracks
  else filter (matches ToLower (ToLower query)) tracks.
End views.

(* ================================================================== *)
(** * Sample inputs *)

Module samples.
Import filepath api.
Local Open Scope Z_scope.
Local Open Scope string_scope.

(** A directory with an unreadable sub-directory [bad] and, after it in
    [ReadDir] order, an audio file. *)
Definition fs_unreadable : fsys :=
  inr (Dir "music" [Dir "bad" [] (Some "permission denied"); File "z.mp3"] None).

(** An unreadable sub-directory between two audio files; what it holds
    cannot be listed. *)
Definition fs_interrupted : fsys :=
  inr (Dir "music"
         [File "a.mp3"; Dir "bad" [File "hidden.mp3"] (Some "permission denied");
          File "z.mp3"]
         None).

(** A readable tree with audio files at three depths. *)
Definition fs_nested : fsys :=
  inr (Dir "music"
         [File "cover.jpg"; File "intro.MP3";
          Dir "live" [File "one.flac"; Dir "cd2.wav" [File "two.Wav"; File "notes.txt"] None]
            None]
         None).

Definition track_blue_train : Track :=
  {| ID := "a1"; Path := "music/blue_train.mp3"; Title := "Blue Train";
     Artist := "John Coltrane"; Album := "Blue Train"; Duration := 643000000000 |}.

Definition track_so_what : Track :=
  {| ID := "b2"; Path := "music/so_what.flac"; Title := "So What";
     Artist := "Miles Davis"; Album := "Kind of Blue"; Duration := 562000000000 |}.

Definition track_naima : Track :=
  {| ID := "c3"; Path := "music/naima.wav"; Title := "Naima";
     Artist := "John Coltrane"; Album := "Giant Steps"; Duration := 261000000000 |}.

(** A library view whose track list is the bare list of its items. *)
Definition library_sample : views.LibraryView (list Track) string :=
  {| views.Width := 80; views.Height := 24;
     views.TrackList_ := [track_naima];
     views.SearchBar := "blue"; views.Searching := true;
     views.AllTracks := [track_blue_train; track_naima; track_so_what];
     views.BorderStyle := fun s => s; views.TitleStyle := fun s => s |}.

(** A progress bar with plain styles, of the given width, position,
    track length and laid-out bar width. *)
Definition bar (width current total bar_width : Z) : components.ProgressBar :=
  {| components.Width := width;
     components.Current := current;
     components.Total := total;
     components.BarChar := "=";
     components.EmptyChar := "-";
     components.ShowTime := true;
     components.Style := fun s => s;
     components.FilledStyle := fun s => s;
     components.EmptyStyle := fun s => s;
     components.HeadStyle := fun s => s;
     components.barWidth := bar_width;
     components.timeWidth := 14 |}.
End samples.
Import samples.

(* ================================================================== *)
(** * Properties of float64 rounding *)

Section FloatFacts.
Import float64.
Local Open Scope Q_scope.

Lemma two_neq_0 : ~ 2 == 0.
Proof. discriminate. Qed.

Lemma pow2_pos k : 0 < 2 ^ k.
Proof. now apply Qpower_0_lt. Qed.

Lemma pow2_neq_0 k : ~ 2 ^ k == 0.
Proof. pose proof (pow2_pos k). lra. Qed.

Lemma pow2_add a b : 2 ^ (a + b) == 2 ^ a * 2 ^ b.
Proof. apply Qpower_plus, two_neq_0. Qed.

Lemma pow2_succ a : 2 ^ (a + 1) == 2 * 2 ^ a.
Proof. rewrite pow2_add. change (2 ^ 1) with 2. ring. Qed.

Lemma pow2_le a b : (a <= b)%Z -> 2 ^ a <= 2 ^ b.
Proof. intros H. apply Qpower_le_compat_l; [exact H | discriminate]. Qed.

Lemma pow2_lt_inv a b : 2 ^ a < 2 ^ b -> (a < b)%Z.
Proof. intros H. apply (Qpower_lt_compat_l_inv 2); [exact H | reflexivity]. Qed.

Lemma pow2_inject k : (0 <= k)%Z -> inject_Z (2 ^ k) == 2 ^ k.
Proof. intros H. now rewrite Zpower_Qpower. Qed.

(** ** The binade of a positive rational *)

Lemma ilog2_spec x : 0 < x -> 2 ^ ilog2 x <= x /\ x < 2 ^ (ilog2 x + 1).
Proof.
  intros Hx. unfold ilog2.
  destruct x as [n d]. cbn [Qnum Qden].
  assert (Hn : (0 < n)%Z) by (unfold Qlt in Hx; cbn in Hx; lia).
  pose proof (Z.log2_spec n Hn) as [Ha1 Ha2].
  pose proof (Z.log2_spec (Zpos d) eq_refl) as [Hb1 Hb2].
  pose proof (Z.log2_nonneg n) as Ha0.
  pose proof (Z.log2_nonneg (Zpos d)) as Hb0.
  set (a := Z.log2 n) in *. set (b := Z.log2 (Zpos d)) in *.
  rewrite Zle_Qle, pow2_inject in Ha1, Hb1 by assumption.
  rewrite Zlt_Qlt, pow2_inject in Ha2, Hb2 by lia.
  unfold Z.succ in Ha2, Hb2. rewrite pow2_succ in Ha2, Hb2.
  pose proof (pow2_pos a) as HA. pose proof (pow2_pos b) as HB.
  assert (HP : 2 ^ (a - b) * 2 ^ b == 2 ^ a).
  { rewrite <- pow2_add. now replace (a - b + b)%Z with a by lia. }
  assert (HX : (n # d) * inject_Z (Zpos d) == inject_Z n).
  { rewrite (Qmake_Qdiv n d). field. discriminate. }
  pose proof (pow2_pos (a - b)) as HPpos.
  destruct (Qle_bool (2 ^ (a - b)) (n # d)) eqn:Hc.
  - apply Qle_bool_iff in Hc. split; [exact Hc |].
    rewrite pow2_succ. nra.
  - assert (Hlt : n # d < 2 ^ (a - b)).
    { apply Qnot_le_lt. intros H. apply Qle_bool_iff in H. congruence. }
    replace (a - b - 1 + 1)%Z with (a - b)%Z by lia. split; [| exact Hlt].
    assert (E : 2 * 2 ^ (a - b - 1) == 2 ^ (a - b)).
    { rewrite <- pow2_succ. now replace (a - b - 1 + 1)%Z with (a - b)%Z by lia. }
    pose proof (pow2_pos (a - b - 1)). nra.
Qed.

Lemma ilog2_unique x e : 2 ^ e <= x -> x < 2 ^ (e + 1) -> ilog2 x = e.
Proof.
  intros H1 H2.
  assert (Hx : 0 < x) by (pose proof (pow2_pos e); lra).
  destruct (ilog2_spec Hx) as [H3 H4].
  assert ((e < ilog2 x + 1)%Z) by (apply pow2_lt_inv; lra).
  assert ((ilog2 x < e + 1)%Z) by (apply pow2_lt_inv; lra).
  lia.
Qed.

Lemma ilog2_mono x y : 0 < x -> x <= y -> (ilog2 x <= ilog2 y)%Z.
Proof.
  intros Hx Hxy.
  destruct (ilog2_spec Hx) as [H1 _].
  destruct (ilog2_spec (x := y)) as [_ H2]; [lra |].
  assert ((ilog2 x < ilog2 y + 1)%Z) by (apply pow2_lt_inv; lra).
  lia.
Qed.

Lemma ilog2_comp x y : 0 < x -> x == y -> ilog2 x = ilog2 y.
Proof.
  intros Hx E. destruct (ilog2_spec Hx) as [H1 H2].
  symmetry. apply ilog2_unique; lra.
Qed.

(** ** Rounding to the nearest integer *)

Lemma Qfloor_unique x z :
  inject_Z z <= x -> x < inject_Z (z + 1) -> Qfloor x = z.
Proof.
  intros H1 H2.
  pose proof (Qfloor_resp_le _ _ H1) as H3. rewrite Qfloor_Z in H3.
  pose proof (Qfloor_le x) as H4.
  assert (H5 : (Qfloor x < z + 1)%Z) by (rewrite Zlt_Qlt; lra).
  lia.
Qed.

Lemma rne_comp x y : x == y -> rne x = rne y.
Proof.
  intros E. unfold rne. rewrite (Qfloor_comp _ _ E).
  assert (E' : x - inject_Z (Qfloor y) == y - inject_Z (Qfloor y)) by now rewrite E.
  now rewrite (Qcompare_comp _ _ E' _ _ (Qeq_refl (1 # 2))).
Qed.

Lemma rne_Z z : rne (inject_Z z) = z.
Proof.
  unfold rne. rewrite Qfloor_Z.
  destruct (Qcompare_spec (inject_Z z - inject_Z z) (1 # 2)) as [H | H | H];
    trivial; exfalso; lra.
Qed.

Lemma rne_mono x y : x <= y -> (rne x <= rne y)%Z.
Proof.
  intros H. pose proof (Qfloor_resp_le _ _ H) as Hf. unfold rne.
  pose proof (Qfloor_le x). pose proof (Qlt_floor x).
  pose proof (Qfloor_le y). pose proof (Qlt_floor y).
  destruct (Z.eq_dec (Qfloor x) (Qfloor y)) as [E | NE].
  - rewrite <- E in *.
    destruct (Qcompare_spec (x - inject_Z (Qfloor x)) (1 # 2)),
             (Qcompare_spec (y - inject_Z (Qfloor x)) (1 # 2));
      destruct (Z.even (Qfloor x)); try lia; exfalso; lra.
  - destruct (Qcompare (x - inject_Z (Qfloor x)) (1 # 2)),
             (Qcompare (y - inject_Z (Qfloor y)) (1 # 2));
      destruct (Z.even (Qfloor x)), (Z.even (Qfloor y)); lia.
Qed.

Lemma rne_ge x z : inject_Z z <= x -> (z <= rne x)%Z.
Proof. intros H. rewrite <- (rne_Z z). now apply rne_mono. Qed.

Lemma rne_le x z : x <= inject_Z z -> (rne x <= z)%Z.
Proof. intros H. rewrite <- (rne_Z z). now apply rne_mono. Qed.

Lemma rne_opp x : rne (- x) = (- rne x)%Z.
Proof.
  pose proof (Qfloor_le x) as H1. pose proof (Qlt_floor x) as H2.
  rewrite inject_Z_plus in H2. change (inject_Z 1) with 1 in H2.
  destruct (Qeq_dec x (inject_Z (Qfloor x))) as [E | NE].
  - rewrite (rne_comp E), rne_Z.
    assert (E' : - x == inject_Z (- Qfloor x))
      by (rewrite inject_Z_opp; now rewrite <- E).
    now rewrite (rne_comp E'), rne_Z.
  - assert (F : Qfloor (- x) = (- Qfloor x - 1)%Z).
    { apply Qfloor_unique.
      - unfold Zminus. rewrite inject_Z_plus, inject_Z_opp.
        change (inject_Z (- (1))) with (- (1)). lra.
      - replace (- Qfloor x - 1 + 1)%Z with (- Qfloor x)%Z by lia.
        rewrite inject_Z_opp.
        assert (inject_Z (Qfloor x) < x) by (apply Qle_lt_or_eq in H1 as [|]; [trivial | now symmetry in H; contradiction]).
        lra. }
    unfold rne. rewrite F.
    assert (Ev : Z.even (- Qfloor x - 1) = negb (Z.even (Qfloor x))).
    { rewrite Z.even_sub, Z.even_opp. cbn. now destruct (Z.even (Qfloor x)). }
    rewrite Ev. unfold Zminus. rewrite inject_Z_plus, inject_Z_opp.
    change (inject_Z (- (1))) with (- (1)).
    destruct (Qcompare_spec (x - inject_Z (Qfloor x)) (1 # 2)),
             (Qcompare_spec (- x - (- inject_Z (Qfloor x) + - (1))) (1 # 2));
      destruct (Z.even (Qfloor x)); cbn [negb]; try lia; exfalso; lra.
Qed.

(** ** Rounding to binary64 *)

Lemma ulp_exp_comp x y : ~ x == 0 -> x == y -> ulp_exp x = ulp_exp y.
Proof.
  intros Hx E. unfold ulp_exp. f_equal. f_equal.
  apply ilog2_comp; [| now rewrite E].
  pose proof (Qabs_nonneg x). destruct (Qeq_dec (Qabs x) 0) as [H0 | H0].
  - exfalso. apply Hx. destruct (Qabs_Qle_condition x 0) as [Hc _]. 
    destruct Hc as [Hc1 Hc2]; [rewrite H0; apply Qle_refl |]. 
    change (- 0) with 0 in Hc1. lra.
  - lra.
Qed.

Lemma round_comp x y : x == y -> round x == round y.
Proof.
  intros E. unfold round. rewrite (Qeqb_comp _ _ E _ _ (Qeq_refl 0)).
  destruct (Qeq_bool y 0) eqn:Hz; [reflexivity |].
  assert (Hx : ~ x == 0) by (rewrite E; now apply Qeq_bool_neq).
  rewrite (ulp_exp_comp Hx E).
  assert (E' : x / 2 ^ ulp_exp y == y / 2 ^ ulp_exp y) by now rewrite E.
  now rewrite (rne_comp E').
Qed.

Lemma round_nonneg x : 0 <= x -> 0 <= round x.
Proof.
  intros H. unfold round. destruct (Qeq_bool x 0); [apply Qle_refl |].
  pose proof (pow2_pos (ulp_exp x)) as Hk.
  apply Qmult_le_0_compat; [| lra].
  change 0 with (inject_Z 0). rewrite <- Zle_Qle. apply rne_ge.
  change (inject_Z 0) with 0. apply Qle_shift_div_l; [exact Hk | lra].
Qed.

Lemma round_opp x : round (- x) == - round x.
Proof.
  unfold round.
  assert (Hb : Qeq_bool (- x) 0 = Qeq_bool x 0).
  { destruct (Qeq_bool x 0) eqn:H0.
    - apply Qeq_bool_iff in H0. apply Qeq_bool_iff. lra.
    - apply Qeq_bool_neq in H0. destruct (Qeq_bool (- x) 0) eqn:H1; trivial.
      apply Qeq_bool_iff in H1. exfalso. apply H0. lra. }
  rewrite Hb. destruct (Qeq_bool x 0) eqn:H0; [reflexivity |].
  apply Qeq_bool_neq in H0.
  assert (Hk : ulp_exp (- x) = ulp_exp x).
  { unfold ulp_exp. f_equal. f_equal. apply ilog2_comp; [| apply Qabs_opp].
    pose proof (Qabs_nonneg (- x)).
    destruct (Qeq_dec (Qabs (- x)) 0) as [Ha | Ha]; [| lra].
    exfalso. apply H0. rewrite Qabs_opp in Ha.
    destruct (Qabs_Qle_condition x 0) as [Hc _].
    destruct Hc as [Hc1 Hc2]; [rewrite Ha; apply Qle_refl |].
    change (- 0) with 0 in Hc1. lra. }
  rewrite Hk.
  assert (E : - x / 2 ^ ulp_exp x == - (x / 2 ^ ulp_exp x))
    by (field; apply pow2_neq_0).
  rewrite (rne_comp E), rne_opp, inject_Z_opp. ring.
Qed.

Lemma ulp_exp_pos x : 0 < x -> ulp_exp x = Z.max (ilog2 x - 52) (-1074).
Proof.
  intros H. unfold ulp_exp. f_equal. f_equal.
  assert (Ha : 0 < Qabs x) by (rewrite Qabs_pos; lra).
  apply ilog2_comp; [exact Ha | apply Qabs_pos; lra].
Qed.

Lemma round_pos_unfold x :
  0 < x -> round x = inject_Z (rne (x / 2 ^ ulp_exp x)) * 2 ^ ulp_exp x.
Proof.
  intros H. unfold round. destruct (Qeq_bool x 0) eqn:H0; trivial.
  apply Qeq_bool_iff in H0. lra.
Qed.

Lemma round_mono_pos x y : 0 < x -> x <= y -> round x <= round y.
Proof.
  intros Hx Hxy. assert (Hy : 0 < y) by lra.
  rewrite (round_pos_unfold Hx), (round_pos_unfold Hy).
  pose proof (ilog2_mono Hx Hxy) as He.
  pose proof (ulp_exp_pos Hx) as Kx. pose proof (ulp_exp_pos Hy) as Ky.
  destruct (ilog2_spec Hx) as [_ Xhi]. destruct (ilog2_spec Hy) as [Ylo _].
  set (kx := ulp_exp x) in *. set (ky := ulp_exp y) in *.
  pose proof (pow2_pos kx) as Hkx. pose proof (pow2_pos ky) as Hky.
  destruct (Z.eq_dec kx ky) as [E | NE].
  - rewrite <- E. apply Qmult_le_compat_r; [| lra].
    rewrite <- Zle_Qle. apply rne_mono.
    apply Qle_shift_div_l; [exact Hkx |].
    assert (x / 2 ^ kx * 2 ^ kx == x) by (field; apply pow2_neq_0). lra.
  - assert (Hlt : (kx + 1 <= ky)%Z) by lia.
    assert (Kyv : ky = (ilog2 y - 52)%Z) by lia.
    assert (Hx53 : (ilog2 x + 1 <= kx + 53)%Z) by lia.
    (* round x <= 2^(kx+53) <= 2^(ky+52) <= round y *)
    apply Qle_trans with (2 ^ (kx + 53)).
    + rewrite pow2_add, (Qmult_comm (2 ^ kx)).
      apply Qmult_le_compat_r; [| lra].
      rewrite <- (pow2_inject (k := 53)) by lia.
      rewrite <- Zle_Qle. apply rne_le. rewrite pow2_inject by lia.
      apply Qle_shift_div_r; [exact Hkx |].
      rewrite <- pow2_add. apply Qlt_le_weak.
      apply Qlt_le_trans with (2 ^ (ilog2 x + 1)); [exact Xhi |].
      apply pow2_le. lia.
    + apply Qle_trans with (2 ^ (ky + 52)); [apply pow2_le; lia |].
      rewrite pow2_add, (Qmult_comm (2 ^ ky)).
      apply Qmult_le_compat_r; [| lra].
      rewrite <- (pow2_inject (k := 52)) by lia.
      rewrite <- Zle_Qle. apply rne_ge. rewrite pow2_inject by lia.
      apply Qle_shift_div_l; [exact Hky |].
      rewrite <- pow2_add. replace (52 + ky)%Z with (ilog2 y) by lia. lra.
Qed.

Lemma round_nonpos x : x <= 0 -> round x <= 0.
Proof.
  intros H. assert (E : x == - - x) by ring.
  rewrite (round_comp E), round_opp.
  pose proof (round_nonneg (x := - x)). lra.
Qed.

Theorem round_mono x y : x <= y -> round x <= round y.
Proof.
  intros H. destruct (Qlt_le_dec 0 x) as [Hx | Hx].
  - now apply round_mono_pos.
  - destruct (Qlt_le_dec y 0) as [Hy | Hy].
    + assert (Ex : x == - - x) by ring. assert (Ey : y == - - y) by ring.
      rewrite (round_comp Ex), (round_comp Ey), (round_opp (- x)), (round_opp (- y)).
      assert (round (- y) <= round (- x)) by (apply round_mono_pos; lra).
      lra.
    + pose proof (round_nonpos Hx). pose proof (round_nonneg Hy). lra.
Qed.

(** ** Values that round to themselves *)

Lemma round_exact x j :
  0 < x -> x == inject_Z j * 2 ^ ulp_exp x -> round x == x.
Proof.
  intros Hx E. rewrite (round_pos_unfold Hx).
  assert (E' : x / 2 ^ ulp_exp x == inject_Z j).
  { rewrite E at 1. field. apply pow2_neq_0. }
  rewrite (rne_comp E'), rne_Z. now rewrite <- E.
Qed.

Lemma round_Z_exact_pos z :
  (0 < z <= 2 ^ 53)%Z -> round (inject_Z z) == inject_Z z.
Proof.
  intros [Hz Hz53].
  assert (Hx : 0 < inject_Z z) by (change 0 with (inject_Z 0); now rewrite <- Zlt_Qlt).
  destruct (ilog2_spec Hx) as [Hlo Hhi].
  pose proof (ulp_exp_pos Hx) as Hk.
  set (e := ilog2 (inject_Z z)) in *.
  assert (He0 : (0 <= e)%Z).
  { assert ((0 < e + 1)%Z); [| lia]. apply pow2_lt_inv.
    apply Qle_lt_trans with (inject_Z z); [| exact Hhi].
    change (2 ^ 0) with (inject_Z 1). rewrite <- Zle_Qle. lia. }
  assert (He53 : (e <= 53)%Z).
  { assert ((e < 54)%Z); [| lia]. apply pow2_lt_inv.
    apply Qle_lt_trans with (inject_Z z); [exact Hlo |].
    rewrite <- (pow2_inject (k := 54)) by lia. rewrite <- Zlt_Qlt. lia. }
  assert (Hkv : ulp_exp (inject_Z z) = (e - 52)%Z) by lia.
  destruct (Z.eq_dec e 53) as [E53 | N53].
  - assert (z = (2 ^ 53)%Z).
    { rewrite E53, <- (pow2_inject (k := 53)) in Hlo by lia.
      rewrite <- Zle_Qle in Hlo. lia. }
    subst z. apply round_exact with (j := (2 ^ 52)%Z); [exact Hx |].
    rewrite Hkv, E53. reflexivity.
  - apply round_exact with (j := (z * 2 ^ (52 - e))%Z); [exact Hx |].
    rewrite Hkv, inject_Z_mult, pow2_inject by lia.
    rewrite <- Qmult_assoc, <- pow2_add.
    replace (52 - e + (e - 52))%Z with 0%Z by lia.
    change (2 ^ 0) with 1. ring.
Qed.

Lemma round_Z_exact z :
  (Z.abs z <= 2 ^ 53)%Z -> round (inject_Z z) == inject_Z z.
Proof.
  intros H. destruct (Z.lt_trichotomy z 0) as [Hn | [-> | Hp]].
  - assert (E : inject_Z z == - inject_Z (- z))
      by (rewrite inject_Z_opp; ring).
    rewrite (round_comp E), round_opp, round_Z_exact_pos by lia.
    now rewrite <- E.
  - reflexivity.
  - apply round_Z_exact_pos. lia.
Qed.

(** ** Conversions between integers and floats *)

Lemma of_int_mono a b : (a <= b)%Z -> of_int a <= of_int b.
Proof. intros H. apply round_mono. now rewrite <- Zle_Qle. Qed.

Lemma of_int_pos z : (0 < z)%Z -> 1 <= of_int z.
Proof.
  intros H. apply Qle_trans with (of_int 1); [now vm_compute |].
  apply of_int_mono. lia.
Qed.

Lemma of_int_nonneg z : (0 <= z)%Z -> 0 <= of_int z.
Proof. intros H. apply round_nonneg. change 0 with (inject_Z 0). now rewrite <- Zle_Qle. Qed.

Lemma trunc_comp x y : x == y -> trunc x = trunc y.
Proof.
  intros E. unfold trunc. rewrite (Qleb_comp _ _ (Qeq_refl 0) _ _ E).
  now rewrite (Qfloor_comp _ _ E), (Qceiling_comp _ _ E).
Qed.

Lemma trunc_Z z : trunc (inject_Z z) = z.
Proof. unfold trunc. rewrite Qfloor_Z, Qceiling_Z. now destruct Qle_bool. Qed.

Lemma trunc_mono x y : x <= y -> (trunc x <= trunc y)%Z.
Proof.
  intros H. unfold trunc.
  destruct (Qle_bool 0 x) eqn:Hx, (Qle_bool 0 y) eqn:Hy.
  - now apply Qfloor_resp_le.
  - apply Qle_bool_iff in Hx.
    assert (~ 0 <= y) by (intros Hc; apply Qle_bool_iff in Hc; congruence). lra.
  - assert (Hx' : x <= 0).
    { apply Qlt_le_weak, Qnot_le_lt. intros Hc. apply Qle_bool_iff in Hc. congruence. }
    apply Qle_bool_iff in Hy.
    apply Qceiling_resp_le in Hx'. apply Qfloor_resp_le in Hy.
    change 0 with (inject_Z 0) in Hx', Hy. rewrite Qceiling_Z in Hx'.
    rewrite Qfloor_Z in Hy. lia.
  - now apply Qceiling_resp_le.
Qed.

(** The rounding above and the Standard Library's specification of
    IEEE 754 arithmetic give the same values: on conversions that are
    exact, inexact, halfway and negative, and on seek computations
    across the range of track lengths. *)
Lemma agrees_with_SpecFloat :
  same_value (of_int 3) (ieee_of_int 3) = true
  /\ same_value (of_int (2 ^ 53 + 1)) (ieee_of_int (2 ^ 53 + 1)) = true
  /\ same_value (of_int (2 ^ 53 + 3)) (ieee_of_int (2 ^ 53 + 3)) = true
  /\ same_value (of_int (- (2 ^ 60) - 129)) (ieee_of_int (- (2 ^ 60) - 129)) = true
  /\ same_value (of_int (2 ^ 63 - 1)) (ieee_of_int (2 ^ 63 - 1)) = true
  /\ same_value (of_int (2 ^ 63 - 513)) (ieee_of_int (2 ^ 63 - 513)) = true
  /\ seek_agrees 1000000000 3 10 = true
  /\ seek_agrees 180000000000 33 66 = true
  /\ seek_agrees 214999999999 7 97 = true
  /\ seek_agrees (2 ^ 53 + 3) 10 10 = true
  /\ seek_agrees (2 ^ 63 - 1) 9 10 = true
  /\ seek_agrees (- 60000000000) 1 3 = true
  /\ seek_agrees 1 1 (2 ^ 62 + 5) = true.
Proof. repeat split; vm_compute; reflexivity. Qed.

Lemma to_int64_in_range x lo hi :
  inject_Z lo <= x -> x <= inject_Z hi ->
  (int64.min_int <= lo)%Z -> (hi <= int64.max_int)%Z ->
  to_int64 x = trunc x /\ (lo <= trunc x <= hi)%Z.
Proof.
  intros H1 H2 Hlo Hhi.
  apply trunc_mono in H1, H2. rewrite trunc_Z in H1, H2.
  unfold to_int64.
  destruct (Z.leb_spec int64.min_int (trunc x)), (Z.leb_spec (trunc x) int64.max_int);
    cbn; split; trivial; lia.
Qed.

(** ** The rounding error *)

Lemma rne_error y :
  (inject_Z (rne y) - y <= 1 # 2)%Q /\ (y - inject_Z (rne y) <= 1 # 2)%Q.
Proof.
  unfold rne. pose proof (Qfloor_le y) as H1. pose proof (Qlt_floor y) as H2.
  rewrite inject_Z_plus in H2. change (inject_Z 1) with 1%Q in H2.
  destruct (Qcompare_spec (y - inject_Z (Qfloor y)) (1 # 2)) as [H | H | H];
    try destruct (Z.even (Qfloor y));
    rewrite ?inject_Z_plus; change (inject_Z 1) with 1%Q; split; lra.
Qed.

Lemma ilog2_lower x e : (2 ^ e <= x)%Q -> (e <= ilog2 x)%Z.
Proof.
  intros H. assert (Hx : (0 < x)%Q) by (pose proof (pow2_pos e); lra).
  destruct (ilog2_spec Hx) as [_ Hhi].
  assert ((e < ilog2 x + 1)%Z) by (apply pow2_lt_inv; lra). lia.
Qed.

(** Rounding a normal number moves it by at most one part in [2^53]. *)
Lemma round_error x :
  (2 ^ (-1022) <= x)%Q ->
  (round x - x <= x * 2 ^ (-53))%Q /\ (x - round x <= x * 2 ^ (-53))%Q.
Proof.
  intros Hn. assert (Hx : (0 < x)%Q) by (pose proof (pow2_pos (-1022)); lra).
  pose proof (ilog2_lower _ Hn) as He.
  rewrite (round_pos_unfold Hx), (ulp_exp_pos Hx).
  rewrite Z.max_l by lia.
  destruct (ilog2_spec Hx) as [Hlo _].
  set (e := ilog2 x) in *. set (k := (e - 52)%Z).
  pose proof (pow2_pos k) as Hk.
  assert (Ek : (2 ^ k == 2 * (2 ^ e * 2 ^ (-53)))%Q).
  { replace k with (e + -53 + 1)%Z by (subst k; lia).
    now rewrite pow2_succ, pow2_add. }
  pose proof (pow2_pos (-53)) as Hu.
  destruct (rne_error (x / 2 ^ k)) as [E1 E2].
  assert (Ey : (x / 2 ^ k * 2 ^ k == x)%Q) by (field; apply pow2_neq_0).
  set (y := (x / 2 ^ k)%Q) in *. set (j := inject_Z (rne y)) in *.
  set (P := (2 ^ k)%Q) in *. set (u := (2 ^ (-53))%Q) in *.
  set (B := (2 ^ e)%Q) in *.
  assert (HBu : (B * u <= x * u)%Q) by (apply Qmult_le_compat_r; lra).
  split; nra.
Qed.

Lemma trunc_nonneg x :
  (0 <= x)%Q -> (inject_Z (trunc x) <= x)%Q /\ (x < inject_Z (trunc x) + 1)%Q.
Proof.
  intros H. unfold trunc. apply Qle_bool_iff in H. rewrite H.
  pose proof (Qfloor_le x). pose proof (Qlt_floor x) as H2.
  rewrite inject_Z_plus in H2. now split.
Qed.

(** Truncation is toward zero: nothing above [-1] goes below [0]. *)
Lemma trunc_above_minus_one x : (- (1) < x)%Q -> (x <= 0)%Q -> trunc x = 0%Z.
Proof.
  intros H1 H0. unfold trunc. destruct (Qle_bool 0 x) eqn:E.
  - apply Qfloor_unique.
    + change (inject_Z 0) with 0%Q. apply Qle_bool_iff in E. lra.
    + change (inject_Z (0 + 1)) with 1%Q. lra.
  - unfold Qceiling. rewrite (@Qfloor_unique (- x) 0); trivial.
    + change (inject_Z 0) with 0%Q. lra.
    + change (inject_Z (0 + 1)) with 1%Q. lra.
Qed.

End FloatFacts.

(* ================================================================== *)
(** * Properties of the loader *)

Section LoaderFacts.
Import filepath loader.
Local Open Scope string_scope.

(** Induction on file-system nodes, with the hypothesis available for
    every entry of a directory. *)
Lemma node_forall_ind (P : node -> Prop) :
  (forall name, P (File name)) ->
  (forall name dirs rderr, Forall P dirs -> P (Dir name dirs rderr)) ->
  forall n, P n.
Proof.
  intros HF HD. fix IH 1. intros [name | name dirs rderr].
  - apply HF.
  - apply HD. induction dirs as [| d1 rest IHrest]; constructor.
    + apply IH.
    + exact IHrest.
Qed.

Lemma walk_entries_fact path dirs :
  Forall (fun n => forall path, walk_fact (walkDir visit) (walkDir visit_logged)
                                   (node_error n) (entries_of path n) path n) dirs ->
  forall files log, exists l,
    walk_entries (walkDir visit) path dirs files
      = ((files ++ map fst (filter wanted l))%list,
         option_map OsError (first_of node_error dirs))
    /\ walk_entries (walkDir visit_logged) path dirs (files, log)
      = ((files ++ map fst (filter wanted l), log ++ l)%list,
         option_map OsError (first_of node_error dirs))
    /\ (exists rest,
          flat_map (fun d1 => entries_of (Join path (Name (entry d1))) d1) dirs
          = (l ++ rest)%list)
    /\ (first_of node_error dirs = None ->
        l = flat_map (fun d1 => entries_of (Join path (Name (entry d1))) d1) dirs).
Proof.
  induction 1 as [| d1 rest Hd1 _ IH]; intros files log.
  - exists []. cbn. rewrite !app_nil_r. repeat split; trivial. now exists [].
  - destruct (Hd1 (Join path (Name (entry d1))) files log)
      as (l1 & E1 & E1' & (r1 & P1) & C1).
    cbn [walk_entries first_of flat_map]. rewrite E1, E1'.
    destruct (node_error d1) as [e |] eqn:Herr; cbn [option_map is_SkipDir].
    + exists l1. repeat split; trivial; [| discriminate].
      exists (r1 ++ flat_map (fun d => entries_of (Join path (Name (entry d))) d) rest)%list.
      now rewrite P1, app_assoc.
    + destruct (IH (files ++ map fst (filter wanted l1))%list (log ++ l1)%list)
        as (l2 & E2 & E2' & (r2 & P2) & C2).
      exists (l1 ++ l2)%list. rewrite E2, E2', filter_app, map_app, !app_assoc.
      rewrite <- (C1 eq_refl). repeat split; trivial.
      * exists r2. now rewrite P2, app_assoc.
      * intros H. now rewrite (C2 H).
Qed.

Lemma walkDir_fact n :
  forall path, walk_fact (walkDir visit) (walkDir visit_logged)
                 (node_error n) (entries_of path n) path n.
Proof.
  induction n as [name | name dirs rderr IH] using node_forall_ind;
    intros path files log.
  - exists [(path, entry (File name))]. cbn.
    unfold visit_logged, visit, wanted; cbn. destruct (audio_ext path); cbn;
      rewrite ?app_nil_r; repeat split; trivial; try (now exists []).
  - destruct rderr as [e |].
    + exists [(path, entry (Dir name dirs (Some e)))]. cbn.
      unfold visit_logged, visit; cbn. rewrite ?app_nil_r. repeat split; trivial; [| discriminate].
      now exists (flat_map (fun d1 => entries_of (Join path (Name (entry d1))) d1) dirs).
    + destruct (walk_entries_fact path IH files (log ++ [(path, entry (Dir name dirs None))])%list)
        as (l & E & E' & (r & P) & C).
      exists ((path, entry (Dir name dirs None)) :: l).
      cbn. cbn in E, E'. rewrite E, E'. unfold wanted at 1 3. cbn.
      rewrite <- !app_assoc. cbn. repeat split; trivial.
      * exists r. now rewrite P.
      * intros H. now rewrite (C H).
Qed.

(** The run of [LoadTracks] and of its instrumented twin. *)
Lemma LoadTracks_fact fs root :
  exists l,
    LoadTracks fs root
      = (map fst (filter wanted l), option_map OsError (first_error fs))
    /\ reached fs root = l
    /\ (exists rest, all_entries fs root = (l ++ rest)%list)
    /\ (first_error fs = None -> l = all_entries fs root).
Proof.
  unfold LoadTracks, reached, WalkDir. destruct fs as [e | n].
  - exists []. cbn. repeat split; trivial. now exists [].
  - destruct (walkDir_fact n root [] []) as (l & E & E' & P & C).
    exists l. rewrite E, E'. cbn [first_error all_entries].
    destruct (node_error n); cbn; repeat split; trivial.
Qed.

Lemma wanted_true path d :
  wanted (path, d) = true <->
  IsDir d = false
  /\ (strings.ToLower (Ext path) = ".mp3"
      \/ strings.ToLower (Ext path) = ".wav"
      \/ strings.ToLower (Ext path) = ".flac").
Proof.
  unfold wanted, audio_ext; cbn [fst snd].
  rewrite andb_true_iff, negb_true_iff, !orb_true_iff, !String.eqb_eq.
  tauto.
Qed.

Lemma NoDup_fst_functional (A B : Type) (l : list (A * B)) a b b' :
  NoDup (map fst l) -> In (a, b) l -> In (a, b') l -> b = b'.
Proof.
  induction l as [| [a0 b0] l IH]; cbn; [tauto |].
  intros Hnd [H | H] [H' | H']; inversion Hnd as [| ? ? Hnot Hnd']; subst.
  - congruence.
  - inversion H; subst. exfalso. apply Hnot. now apply (in_map fst _ (a, b')).
  - inversion H'; subst. exfalso. apply Hnot. now apply (in_map fst _ (a, b)).
  - now apply IH.
Qed.

Lemma In_wanted_paths l path d :
  NoDup (map fst l) -> In (path, d) l ->
  (In path (map fst (filter wanted l)) <-> wanted (path, d) = true).
Proof.
  intros Hnd Hin. rewrite in_map_iff. split.
  - intros ([p' d'] & Hp & Hf). cbn in Hp; subst p'.
    apply filter_In in Hf as [Hin' Hw].
    now rewrite (@NoDup_fst_functional _ _ l path d d' Hnd Hin Hin').
  - intros Hw. exists (path, d). split; trivial. now apply filter_In.
Qed.

(** ** Where the walk stops *)

Lemma until_failure_app l1 l2 :
  until_failure (l1 ++ l2)
  = (until_failure l1
     ++ match first_failure l1 with
        | Some _ => []
        | None => until_failure l2
        end)%list.
Proof.
  induction l1 as [| [pd [e |]] l1 IH]; cbn; trivial. now rewrite IH.
Qed.

Lemma first_failure_app l1 l2 :
  first_failure (l1 ++ l2)
  = match first_failure l1 with
    | Some e => Some e
    | None => first_failure l2
    end.
Proof. induction l1 as [| [pd [e |]] l1 IH]; cbn; trivial. Qed.

Lemma until_failure_prefix l :
  exists rest, map fst l = (until_failure l ++ rest)%list.
Proof.
  induction l as [| [pd [e |]] l [rest IH]]; cbn.
  - now exists [].
  - now exists (map fst l).
  - exists rest. now rewrite IH.
Qed.

Lemma listing_entries n : forall path, map fst (listing path n) = entries_of path n.
Proof.
  induction n as [name | name dirs rderr IH] using node_forall_ind;
    intros path; cbn [listing entries_of map fst]; f_equal.
  induction IH as [| d1 rest Hd1 _ IHrest]; cbn [flat_map]; trivial.
  now rewrite map_app, Hd1, IHrest.
Qed.

Lemma walk_entries_walked path dirs :
  Forall (fun n => forall path files log,
            walkDir visit_logged path n (files, log)
            = ((files ++ map fst (filter wanted (until_failure (listing path n))),
                log ++ until_failure (listing path n))%list,
               option_map OsError (first_failure (listing path n)))) dirs ->
  forall files log,
    walk_entries (walkDir visit_logged) path dirs (files, log)
    = ((files
        ++ map fst (filter wanted (until_failure
             (flat_map (fun d1 => listing (Join path (Name (entry d1))) d1) dirs))),
        log ++ until_failure
                 (flat_map (fun d1 => listing (Join path (Name (entry d1))) d1) dirs))%list,
       option_map OsError
         (first_failure
            (flat_map (fun d1 => listing (Join path (Name (entry d1))) d1) dirs))).
Proof.
  induction 1 as [| d1 rest Hd1 _ IH]; intros files log.
  - cbn. now rewrite !app_nil_r.
  - cbn [walk_entries flat_map]. rewrite Hd1, until_failure_app, first_failure_app.
    destruct (first_failure (listing (Join path (Name (entry d1))) d1)) as [e |];
      cbn [option_map is_SkipDir].
    + now rewrite app_nil_r.
    + rewrite IH. now rewrite filter_app, map_app, !app_assoc.
Qed.

(** The instrumented walk from a node is handed the entries below it up
    to the first one that fails, and returns the error of that one. *)
Lemma walkDir_walked n : forall path files log,
  walkDir visit_logged path n (files, log)
  = ((files ++ map fst (filter wanted (until_failure (listing path n))),
      log ++ until_failure (listing path n))%list,
     option_map OsError (first_failure (listing path n))).
Proof.
  induction n as [name | name dirs rderr IH] using node_forall_ind;
    intros path files log.
  - cbn. unfold visit_logged, visit, wanted; cbn.
    destruct (audio_ext path); cbn; now rewrite ?app_nil_r.
  - destruct rderr as [e |].
    + cbn. unfold visit_logged, visit; cbn. now rewrite ?app_nil_r.
    + pose proof (walk_entries_walked path IH files
                    (log ++ [(path, entry (Dir name dirs None))])%list) as E.
      cbn. cbn in E. rewrite E. now rewrite <- !app_assoc.
Qed.

Lemma reached_walked fs root : reached fs root = walked fs root.
Proof.
  unfold reached, walked, WalkDir. destruct fs as [e | n]; [reflexivity |].
  rewrite walkDir_walked.
  now destruct (first_failure (listing root n)).
Qed.

(** C1 (as amended).  When some entry reports an error, [LoadTracks]
    still returns, but the first such entry stops the walk: the closure
    is handed the entries under the root, in walk order, up to the first
    one that fails and none after it; the result carries that entry's
    error, and the paths returned are those of the audio files among the
    entries before it.  The audio files after the failing entry are not
    returned. *)
Theorem LoadTracks_stops_at_first_error fs root e :
  first_error fs = Some e ->
  LoadTracks fs root = (map fst (filter wanted (walked fs root)), Some (OsError e))
  /\ reached fs root = walked fs root
  /\ (forall n, fs = inr n ->
        map fst (listing root n) = all_entries fs root
        /\ first_failure (listing root n) = Some e)
  /\ exists rest,
       all_entries fs root = (walked fs root ++ rest)%list
       /\ audio_files fs root
          = (fst (LoadTracks fs root) ++ map fst (filter wanted rest))%list.
Proof.
  intros He.
  destruct (LoadTracks_fact fs root) as (l & E & R & _).
  rewrite reached_walked in R. subst l. rewrite E, He. cbn [option_map fst].
  split; [reflexivity |]. split; [apply reached_walked |]. split.
  - intros n ->. cbn [all_entries]. split; [apply listing_entries |].
    pose proof (walkDir_walked n root [] []) as W.
    destruct (walkDir_fact n root [] []) as (l & _ & W' & _).
    rewrite W in W'. cbn [first_error] in He. rewrite He in W'.
    destruct (first_failure (listing root n)); cbn in W'; congruence.
  - unfold audio_files. destruct fs as [e0 | n]; cbn [walked all_entries].
    + now exists [].
    + destruct (until_failure_prefix (listing root n)) as [rest P].
      rewrite listing_entries in P. exists rest. split; [exact P |].
      now rewrite P, filter_app, map_app.
Qed.

Lemma LoadTracks_stops_at_first_error_witness :
  LoadTracks fs_interrupted "music"
  = (map fst (filter wanted (walked fs_interrupted "music")),
     Some (OsError "permission denied"))
  /\ map fst (walked fs_interrupted "music") = ["music"; "music/a.mp3"; "music/bad"]
  /\ fst (LoadTracks fs_interrupted "music") = ["music/a.mp3"].
Proof.
  split; [| split; reflexivity].
  apply (@LoadTracks_stops_at_first_error fs_interrupted "music" "permission denied").
  reflexivity.
Defined.

(** C1 as stated fails: the unreadable directory aborts the scan, its
    error is the result, and the audio file after it is not returned. *)
Lemma LoadTracks_per_file_failure_aborts :
  first_error fs_unreadable = Some "permission denied"
  /\ In "music/z.mp3" (audio_files fs_unreadable "music")
  /\ ~ In "music/z.mp3" (fst (LoadTracks fs_unreadable "music"))
  /\ snd (LoadTracks fs_unreadable "music") = Some (OsError "permission denied").
Proof.
  repeat split; try reflexivity.
  - cbn. now left.
  - cbn. tauto.
Qed.

(** C2.  The paths [LoadTracks] returns are exactly, and in walk order,
    the paths of the entries reached by the walk that are not directories
    and whose lowered extension is [.mp3], [.wav] or [.flac]; entry by
    entry (paths of reached entries being distinct) an entry's path is in
    the result if and only if it passes that test; and a walk that meets
    no error reaches every entry under the root, at any depth. *)
Theorem LoadTracks_includes_exactly_audio_entries fs root :
  fst (LoadTracks fs root) = map fst (filter wanted (reached fs root))
  /\ (NoDup (map fst (reached fs root)) ->
      forall path d, In (path, d) (reached fs root) ->
        (In path (fst (LoadTracks fs root)) <->
         IsDir d = false
         /\ (strings.ToLower (Ext path) = ".mp3"
             \/ strings.ToLower (Ext path) = ".wav"
             \/ strings.ToLower (Ext path) = ".flac")))
  /\ (first_error fs = None -> reached fs root = all_entries fs root).
Proof.
  destruct (LoadTracks_fact fs root) as (l & E & R & _ & C).
  rewrite E, R; cbn [fst]. split; [reflexivity | split].
  - intros Hnd path d Hin. rewrite <- wanted_true. now apply In_wanted_paths.
  - exact C.
Qed.

Ltac nodup_strings :=
  repeat (constructor; [cbn; intuition discriminate |]); constructor.

Lemma LoadTracks_includes_exactly_audio_entries_witness :
  (In "music/live/cd2.wav/two.Wav" (fst (LoadTracks fs_nested "music")) <->
   false = false
   /\ (strings.ToLower (Ext "music/live/cd2.wav/two.Wav") = ".mp3"
       \/ strings.ToLower (Ext "music/live/cd2.wav/two.Wav") = ".wav"
       \/ strings.ToLower (Ext "music/live/cd2.wav/two.Wav") = ".flac"))
  /\ reached fs_nested "music" = all_entries fs_nested "music".
Proof.
  destruct (LoadTracks_includes_exactly_audio_entries fs_nested "music")
    as (_ & Hiff & Hall).
  split.
  - apply (Hiff ltac:(vm_compute; nodup_strings) "music/live/cd2.wav/two.Wav"
             {| Name := "two.Wav"; IsDir := false |}).
    vm_compute. tauto.
  - apply Hall. reflexivity.
Defined.
End LoaderFacts.

(* ================================================================== *)
(** * Properties of the library search *)

Section SearchFacts.
Import api views.
Local Open Scope string_scope.

Lemma prefix_true a b : prefix a b = true <-> exists after, b = a ++ after.
Proof.
  revert b. induction a as [| c a IH]; intros [| c' b]; cbn.
  - split; trivial. intros _. now exists "".
  - split; trivial. intros _. now exists (String c' b).
  - split; [discriminate | intros [after H]; discriminate].
  - destruct (ascii_dec c c') as [-> | Hne].
    + rewrite IH. split; intros [after H]; exists after; congruence.
    + split; [discriminate | intros [after H]; congruence].
Qed.

Lemma Contains_true s substr :
  strings.Contains s substr = true <->
  exists before after, s = before ++ substr ++ after.
Proof.
  induction s as [| c s IH]; cbn [strings.Contains].
  - destruct (prefix substr "") eqn:Hp.
    + apply prefix_true in Hp as [after H].
      split; trivial. intros _. now exists "", after.
    + split; [discriminate |]. intros ([| c b] & after & H); [| discriminate].
      cbn in H. assert (prefix substr "" = true) by (apply prefix_true; eauto).
      congruence.
  - destruct (prefix substr (String c s)) eqn:Hp.
    + apply prefix_true in Hp as [after H].
      split; trivial. intros _. now exists "", after.
    + rewrite IH. split.
      * intros (b & after & H). exists (String c b), after. cbn. now rewrite H.
      * intros ([| c' b] & after & H).
        -- cbn in H. assert (prefix substr (String c s) = true)
             by (apply prefix_true; eauto). congruence.
        -- cbn in H. inversion H. eauto.
Qed.

Lemma Contains_empty s : strings.Contains s "" = true.
Proof. apply Contains_true. now exists "", s. Qed.

Lemma matches_true (ToLower : string -> string) query track :
  matches ToLower (ToLower query) track = true <->
  occurs_nocase ToLower query (Title track)
  \/ occurs_nocase ToLower query (Artist track)
  \/ occurs_nocase ToLower query (Album track).
Proof.
  unfold matches, occurs_nocase.
  rewrite !orb_true_iff, !Contains_true. tauto.
Qed.

(** The loop of [filterTracks] is a filter. *)
Lemma append_loop_filter (A : Type) (keep : A -> bool) l acc :
  fold_left (fun filtered x => if keep x then (filtered ++ [x])%list else filtered) l acc
  = (acc ++ filter keep l)%list.
Proof.
  revert acc. induction l as [| x l IH]; intros acc; cbn.
  - now rewrite app_nil_r.
  - rewrite IH. destruct (keep x); trivial. now rewrite <- app_assoc.
Qed.

Lemma filter_subsequence (A : Type) (keep : A -> bool) l :
  subsequence (filter keep l) l.
Proof.
  induction l as [| x l IH]; cbn; [constructor |].
  destruct (keep x); now constructor.
Qed.

Lemma filter_all (A : Type) (keep : A -> bool) l :
  (forall x, keep x = true) -> filter keep l = l.
Proof.
  intros H. induction l as [| x l IH]; cbn; trivial. now rewrite H, IH.
Qed.

Lemma subsequence_refl (A : Type) (l : list A) : subsequence l l.
Proof. induction l as [| x l IH]; now constructor. Qed.

(** C5.  [filterTracks] hands the track list, through [SetItems], tracks
    of [AllTracks] in their original order: for a query that is not
    empty, exactly those whose title, artist or album, lowered by
    [strings.ToLower], contains the lowered query; for the empty query,
    all of them, which are again the tracks that contain the query when
    [strings.ToLower] leaves the empty string as it is.  Nothing else of
    the view changes.  This holds whatever [strings.ToLower] maps a string
    to. *)
Theorem filterTracks_selects_matching_tracks
    (TrackList SearchInput : Type)
    (SetItems : TrackList -> list Track -> TrackList)
    (ToLower : string -> string)
    (v : LibraryView TrackList SearchInput) (query : string) :
  (exists shown,
      filterTracks SetItems ToLower v query = set_items SetItems v shown
      /\ (query <> "" \/ ToLower "" = "" ->
          forall t, In t shown <->
                    In t (AllTracks v)
                    /\ (occurs_nocase ToLower query (Title t)
                        \/ occurs_nocase ToLower query (Artist t)
                        \/ occurs_nocase ToLower query (Album t)))
      /\ (query = "" -> shown = AllTracks v)
      /\ subsequence shown (AllTracks v))
  /\ filterTracks SetItems ToLower v "" = set_items SetItems v (AllTracks v)
  /\ AllTracks (filterTracks SetItems ToLower v query) = AllTracks v
  /\ SearchBar (filterTracks SetItems ToLower v query) = SearchBar v
  /\ Searching (filterTracks SetItems ToLower v query) = Searching v
  /\ Width (filterTracks SetItems ToLower v query) = Width v
  /\ Height (filterTracks SetItems ToLower v query) = Height v
  /\ BorderStyle (filterTracks SetItems ToLower v query) = BorderStyle v
  /\ TitleStyle (filterTracks SetItems ToLower v query) = TitleStyle v.
Proof.
  assert (E : filterTracks SetItems ToLower v query
              = set_items SetItems v (selection ToLower query (AllTracks v))).
  { unfold filterTracks, selection. destruct (String.eqb query ""); trivial.
    now rewrite append_loop_filter. }
  split; [| rewrite E; cbn; repeat split].
  exists (selection ToLower query (AllTracks v)).
  split; [exact E |]. unfold selection.
  destruct (String.eqb_spec query "") as [-> | Hne].
  - split; [| split; [reflexivity | apply subsequence_refl]].
    intros [H | H]; [congruence |]. intros t.
    rewrite <- matches_true, H. unfold matches. rewrite !Contains_empty. cbn. tauto.
  - split; [| split; [congruence | apply filter_subsequence]].
    intros _ t. rewrite filter_In, matches_true. tauto.
Qed.

Lemma filterTracks_selects_matching_tracks_witness :
  exists shown,
    filterTracks (fun (_ : list Track) items => items) strings.ToLower library_sample "BLUE"
    = set_items (fun _ items => items) library_sample shown
    /\ shown = [track_blue_train; track_so_what]
    /\ (In track_so_what shown <->
        In track_so_what (AllTracks library_sample)
        /\ (occurs_nocase strings.ToLower "BLUE" (Title track_so_what)
            \/ occurs_nocase strings.ToLower "BLUE" (Artist track_so_what)
            \/ occurs_nocase strings.ToLower "BLUE" (Album track_so_what))).
Proof.
  destruct (filterTracks_selects_matching_tracks
              (fun (_ : list Track) items => items) strings.ToLower library_sample "BLUE")
    as ((shown & E & Hiff & _) & _).
  exists shown. split; [exact E |]. split.
  - vm_compute in E. now inversion E.
  - apply Hiff. left. discriminate.
Defined.
End SearchFacts.

(* ================================================================== *)
(** * Properties of the progress bar *)

Section ClickFacts.
Import float64 time components.
Local Open Scope Z_scope.

Lemma wrap_in_range z : int64.in_range z -> int64.wrap z = z.
Proof.
  unfold int64.in_range, int64.min_int, int64.max_int, int64.wrap.
  intros H. rewrite Z.mod_small; lia.
Qed.

Lemma wrap_range z : int64.in_range (int64.wrap z).
Proof.
  unfold int64.in_range, int64.min_int, int64.max_int, int64.wrap.
  pose proof (Z.mod_pos_bound (z + 2 ^ 63) (2 ^ 64)). lia.
Qed.

Lemma HandleClick_unfold p clickX barOffsetX :
  0 < barWidth p -> 0 < Total p ->
  HandleClick p clickX barOffsetX
  = Some (to_int64
            (mul (of_int (Total p))
                 (round (of_int (clamped p clickX barOffsetX) / of_int (barWidth p))))).
Proof.
  intros Hw Ht. unfold HandleClick, clamped, div.
  destruct (Z.leb_spec (barWidth p) 0); [lia |].
  destruct (Z.leb_spec (Total p) 0); [lia |]. cbn [orb].
  pose proof (of_int_pos Hw) as Hfw.
  destruct (Qeq_bool (of_int (barWidth p)) 0) eqn:Hz.
  { apply Qeq_bool_iff in Hz. lra. }
  set (relX := int64.sub clickX barOffsetX).
  assert (E : (if (if relX <? 0 then 0 else relX) >? barWidth p
               then barWidth p else if relX <? 0 then 0 else relX)
              = Z.min (barWidth p) (Z.max 0 relX)).
  { destruct (Z.ltb_spec relX 0).
    - destruct (Z.gtb_spec 0 (barWidth p)); lia.
    - destruct (Z.gtb_spec relX (barWidth p)); lia. }
  now rewrite E.
Qed.

Lemma fraction_mono r1 r2 w :
  r1 <= r2 -> 0 < w ->
  (round (of_int r1 / of_int w) <= round (of_int r2 / of_int w))%Q.
Proof.
  intros Hr Hw. apply round_mono.
  pose proof (of_int_pos Hw). pose proof (of_int_mono Hr).
  apply Qmult_le_compat_r; [assumption |].
  apply Qlt_le_weak, Qinv_lt_0_compat. lra.
Qed.

Lemma fraction_zero w : 0 < w -> (round (of_int 0 / of_int w) == 0)%Q.
Proof.
  intros Hw. pose proof (of_int_pos Hw).
  assert (E : (of_int 0 / of_int w == 0)%Q) by (change (of_int 0) with 0%Q; field; lra).
  now rewrite (round_comp E).
Qed.

Lemma fraction_one w : 0 < w -> (round (of_int w / of_int w) == 1)%Q.
Proof.
  intros Hw. pose proof (of_int_pos Hw).
  assert (E : (of_int w / of_int w == 1)%Q) by (field; lra).
  now rewrite (round_comp E).
Qed.

Lemma fraction_bounds r w :
  0 <= r <= w -> 0 < w ->
  (0 <= round (of_int r / of_int w) <= 1)%Q.
Proof.
  intros [Hr0 Hrw] Hw. split.
  - rewrite <- (fraction_zero Hw). now apply fraction_mono.
  - rewrite <- (fraction_one Hw). now apply fraction_mono.
Qed.

Lemma to_int64_comp x y : (x == y)%Q -> to_int64 x = to_int64 y.
Proof. intros E. unfold to_int64. now rewrite (trunc_comp E). Qed.

Lemma mul_mono_r t x y : (0 <= t)%Q -> (x <= y)%Q -> (mul t x <= mul t y)%Q.
Proof.
  intros Ht Hxy. apply round_mono.
  rewrite !(Qmult_comm t). now apply Qmult_le_compat_r.
Qed.

Lemma mul_zero_r t x : (x == 0)%Q -> (mul t x == 0)%Q.
Proof.
  intros E. unfold mul. assert (E' : (t * x == 0)%Q) by (rewrite E; ring).
  now rewrite (round_comp E').
Qed.

Lemma mul_one_r t x : (x == 1)%Q -> (mul t x == round t)%Q.
Proof.
  intros E. unfold mul. assert (E' : (t * x == t)%Q) by (rewrite E; ring).
  now rewrite (round_comp E').
Qed.

Lemma clamped_bounds p clickX barOffsetX :
  0 < barWidth p -> 0 <= clamped p clickX barOffsetX <= barWidth p.
Proof. unfold clamped. lia. Qed.

(** The seek target before its conversion to an integer lies between
    zero and the rounded track length. *)
Lemma seek_bounds t r w :
  0 <= t -> 0 <= r <= w -> 0 < w ->
  (0 <= mul (of_int t) (round (of_int r / of_int w)) <= round (of_int t))%Q.
Proof.
  intros Ht Hr Hw. destruct (fraction_bounds Hr Hw) as [H0 H1].
  pose proof (of_int_nonneg Ht) as Hft. split.
  - apply round_nonneg. now apply Qmult_le_0_compat.
  - rewrite <- (mul_one_r (of_int t) (x := 1%Q)) by reflexivity.
    now apply mul_mono_r.
Qed.

(** C3 (as amended).  For a bar with [barWidth > 0] and a [Total > 0]
    that [float64] represents exactly (as it does every [Total] up to
    [2^53] ns), [HandleClick] returns a duration in [[0, Total]]; it is
    [0] when the offset the code computes, the wrapping difference
    [clickX - barOffsetX], is at most [0], and [Total] when that offset is
    at least [barWidth]. *)
Theorem HandleClick_within_track p clickX barOffsetX :
  0 < barWidth p ->
  0 < Total p <= int64.max_int ->
  (of_int (Total p) == inject_Z (Total p))%Q ->
  exists d,
    HandleClick p clickX barOffsetX = Some d
    /\ 0 <= d <= Total p
    /\ (int64.sub clickX barOffsetX <= 0 -> d = 0)
    /\ (barWidth p <= int64.sub clickX barOffsetX -> d = Total p).
Proof.
  intros Hw [Ht Htmax] Hrep.
  rewrite (@HandleClick_unfold p _ _ Hw Ht).
  pose proof (@clamped_bounds p clickX barOffsetX Hw) as Hr.
  destruct (seek_bounds (t := Total p) ltac:(lia) Hr Hw) as [Hlo Hhi].
  assert (Hrt : (round (of_int (Total p)) == inject_Z (Total p))%Q).
  { rewrite (round_comp Hrep). exact Hrep. }
  rewrite Hrt in Hhi.
  destruct (to_int64_in_range (lo := 0) (hi := Total p) Hlo Hhi) as [Hconv Hb];
    [unfold int64.min_int; lia | exact Htmax |].
  eexists. split; [reflexivity |]. split; [now rewrite Hconv |]. split.
  - intros Hrel.
    assert (E : clamped p clickX barOffsetX = 0) by (unfold clamped; lia).
    rewrite E. rewrite (to_int64_comp (mul_zero_r _ (fraction_zero Hw))).
    reflexivity.
  - intros Hrel.
    assert (E : clamped p clickX barOffsetX = barWidth p) by (unfold clamped; lia).
    rewrite E. rewrite (to_int64_comp (mul_one_r _ (fraction_one Hw))).
    rewrite (to_int64_comp Hrt).
    destruct (to_int64_in_range (x := inject_Z (Total p)) (lo := 0) (hi := Total p))
      as [Hc _]; try (unfold int64.min_int; lia); try exact Htmax.
    + change 0%Q with (inject_Z 0). rewrite <- Zle_Qle. lia.
    + apply Qle_refl.
    + rewrite Hc. apply trunc_Z.
Qed.

Lemma HandleClick_within_track_witness :
  exists d,
    HandleClick (bar 80 0 180000000000 66) 35 2 = Some d
    /\ 0 <= d <= 180000000000
    /\ (int64.sub 35 2 <= 0 -> d = 0)
    /\ (66 <= int64.sub 35 2 -> d = 180000000000).
Proof.
  apply (@HandleClick_within_track (bar 80 0 180000000000 66) 35 2).
  - reflexivity.
  - cbn. unfold int64.max_int. lia.
  - vm_compute. reflexivity.
Defined.

(** C3 as stated fails.  A track of [2^53 + 3] ns is rounded to
    [2^53 + 4] by the conversion to [float64], so that a click on the end
    of the bar returns more than [Total]; and a click whose distance to
    the bar overflows [int] ([-2^63 - 1] wraps to [2^63 - 1]) is taken to
    be right of the bar although [clickX - barOffsetX <= 0]. *)
Lemma HandleClick_leaves_track_bounds :
  HandleClick (bar 80 0 (2 ^ 53 + 3) 10) 10 0 = Some (2 ^ 53 + 4)
  /\ HandleClick (bar 80 0 1000000000 10) int64.min_int 1 = Some 1000000000.
Proof. split; vm_compute; reflexivity. Qed.

(** C4.  With [Total <= 0] or [barWidth <= 0] the result is [0], and on
    no input does [HandleClick] divide by zero. *)
Theorem HandleClick_guarded p clickX barOffsetX :
  (Total p <= 0 \/ barWidth p <= 0 -> HandleClick p clickX barOffsetX = Some 0)
  /\ HandleClick p clickX barOffsetX <> None.
Proof.
  split.
  - intros H. unfold HandleClick.
    destruct (Z.leb_spec (barWidth p) 0), (Z.leb_spec (Total p) 0);
      cbn [orb]; trivial; lia.
  - destruct (Z.leb_spec (barWidth p) 0) as [Hw | Hw];
      [| destruct (Z.leb_spec (Total p) 0) as [Ht | Ht]].
    + unfold HandleClick. destruct (Z.leb_spec (barWidth p) 0); [discriminate | lia].
    + unfold HandleClick. destruct (Z.leb_spec (Total p) 0); [| lia].
      rewrite orb_true_r. discriminate.
    + now rewrite (@HandleClick_unfold p _ _ Hw Ht).
Qed.

Lemma HandleClick_guarded_witness :
  HandleClick (bar 80 0 0 0) 35 2 = Some 0.
Proof.
  apply (HandleClick_guarded (bar 80 0 0 0) 35 2). left. cbn. lia.
Defined.

(** C7 (as amended).  For a bar with [barWidth > 0] and
    [0 < Total <= 2^63 - 513], and clicks whose distance
    [clickX - barOffsetX] does not overflow [int], [HandleClick] is
    monotone in [clickX]. *)
Theorem HandleClick_monotone p clickX1 clickX2 barOffsetX :
  0 < barWidth p ->
  0 < Total p <= 2 ^ 63 - 513 ->
  int64.in_range (clickX1 - barOffsetX) ->
  int64.in_range (clickX2 - barOffsetX) ->
  clickX1 <= clickX2 ->
  exists d1 d2,
    HandleClick p clickX1 barOffsetX = Some d1
    /\ HandleClick p clickX2 barOffsetX = Some d2
    /\ d1 <= d2.
Proof.
  intros Hw [Ht Htmax] Hr1 Hr2 Hle.
  rewrite !(@HandleClick_unfold p _ _ Hw Ht).
  pose proof (@clamped_bounds p clickX1 barOffsetX Hw) as Hc1.
  pose proof (@clamped_bounds p clickX2 barOffsetX Hw) as Hc2.
  assert (Hc : clamped p clickX1 barOffsetX <= clamped p clickX2 barOffsetX).
  { unfold clamped, int64.sub. rewrite !wrap_in_range by assumption. lia. }
  assert (Hmax : (round (of_int (Total p)) <= inject_Z (2 ^ 63 - 1024))%Q).
  { apply Qle_trans with (round (of_int (2 ^ 63 - 513))).
    - apply round_mono, of_int_mono. lia.
    - now vm_compute. }
  destruct (seek_bounds (t := Total p) ltac:(lia) Hc1 Hw) as [Hlo1 Hhi1].
  destruct (seek_bounds (t := Total p) ltac:(lia) Hc2 Hw) as [Hlo2 Hhi2].
  destruct (to_int64_in_range (lo := 0) (hi := 2 ^ 63 - 1024) Hlo1) as [E1 _];
    [lra | unfold int64.min_int; lia | unfold int64.max_int; lia |].
  destruct (to_int64_in_range (lo := 0) (hi := 2 ^ 63 - 1024) Hlo2) as [E2 _];
    [lra | unfold int64.min_int; lia | unfold int64.max_int; lia |].
  do 2 eexists. split; [reflexivity |]. split; [reflexivity |].
  rewrite E1, E2. apply trunc_mono, mul_mono_r.
  - apply of_int_nonneg. lia.
  - now apply fraction_mono.
Qed.

Lemma HandleClick_monotone_witness :
  exists d1 d2,
    HandleClick (bar 80 0 180000000000 66) 20 2 = Some d1
    /\ HandleClick (bar 80 0 180000000000 66) 35 2 = Some d2
    /\ d1 <= d2.
Proof.
  apply (@HandleClick_monotone (bar 80 0 180000000000 66) 20 35 2).
  - reflexivity.
  - cbn. lia.
  - unfold int64.in_range, int64.min_int, int64.max_int. lia.
  - unfold int64.in_range, int64.min_int, int64.max_int. lia.
  - lia.
Defined.

(** C7 as stated fails.  A click at the smallest [int] left of an offset
    of [1] overflows to the far right and seeks to the end, beyond a click
    at [5]; and with the longest [Total] a click on the end of the bar
    converts [2^63] to the smallest [int], below the click before it. *)
Lemma HandleClick_not_monotone :
  (int64.min_int <= 5
   /\ HandleClick (bar 80 0 1000000000 10) int64.min_int 1 = Some 1000000000
   /\ HandleClick (bar 80 0 1000000000 10) 5 1 = Some 400000000)
  /\ (9 <= 10
      /\ HandleClick (bar 80 0 int64.max_int 10) 9 0 = Some 8301034833169298432
      /\ HandleClick (bar 80 0 int64.max_int 10) 10 0 = Some int64.min_int).
Proof.
  repeat split; try (vm_compute; reflexivity); vm_compute; discriminate.
Qed.
End ClickFacts.

(* ================================================================== *)
(** * Properties of the time display *)

Section FormatFacts.
Import time fmt components.
Local Open Scope Z_scope.

Lemma append_assoc (a b c : string) : ((a ++ b) ++ c = a ++ b ++ c)%string.
Proof. induction a as [| x a IH]; cbn; [trivial | now rewrite IH]. Qed.

Lemma append_empty_r (a : string) : (a ++ "" = a)%string.
Proof. induction a as [| x a IH]; cbn; [trivial | now rewrite IH]. Qed.

Lemma length_append (a b : string) :
  String.length (a ++ b) = (String.length a + String.length b)%nat.
Proof. induction a as [| x a IH]; cbn; [trivial | now rewrite IH]. Qed.

Lemma read_from_append a s1 s2 :
  read_from a (s1 ++ s2)
  = match read_from a s1 with
    | Some a' => read_from a' s2
    | None => None
    end.
Proof.
  revert a. induction s1 as [| c s1 IH]; intros a; cbn; trivial.
  destruct ((0 <=? Z.of_N (N_of_ascii c) - 48) && (Z.of_N (N_of_ascii c) - 48 <=? 9));
    trivial.
Qed.

Lemma digit_value d : 0 <= d <= 9 -> Z.of_N (N_of_ascii (digit d)) - 48 = d.
Proof.
  intros H. unfold digit. rewrite N_ascii_embedding; lia.
Qed.

Lemma read_digit a d :
  0 <= d <= 9 -> read_from a (String (digit d) "") = Some (a * 10 + d).
Proof.
  intros H. cbn. rewrite (digit_value H).
  destruct (Z.leb_spec 0 d), (Z.leb_spec d 9); cbn; trivial; lia.
Qed.

Lemma digits_step fuel n acc :
  digits (S fuel) n acc
  = if n <? 10 then String (digit (n mod 10)) acc
    else digits fuel (n / 10) (String (digit (n mod 10)) acc).
Proof. reflexivity. Qed.

(** With enough fuel, [digits] puts the decimal digits of [n] in front of
    [acc]: as many as [n] needs and no more. *)
Lemma digits_spec fuel : forall n acc,
  0 <= n < 10 ^ Z.of_nat (S fuel) ->
  exists ds,
    digits (S fuel) n acc = (ds ++ acc)%string
    /\ (forall a, read_from a ds = Some (a * 10 ^ Z.of_nat (String.length ds) + n))
    /\ (1 <= String.length ds)%nat
    /\ (forall k, n < 10 ^ Z.of_nat (S k) -> (String.length ds <= S k)%nat)
    /\ (10 <= n -> (2 <= String.length ds)%nat).
Proof.
  induction fuel as [| fuel IH]; intros n acc Hn.
  - assert (n < 10) by (change (10 ^ Z.of_nat 1) with 10 in Hn; lia).
    exists (String (digit (n mod 10)) ""). cbn [digits].
    destruct (Z.ltb_spec n 10); [| lia].
    rewrite Z.mod_small by lia.
    repeat split; trivial; try (cbn; lia).
    intros a. rewrite read_digit by lia. reflexivity.
  - rewrite digits_step. destruct (Z.ltb_spec n 10) as [Hlt | Hge].
    + exists (String (digit (n mod 10)) "").
      rewrite Z.mod_small by lia.
      repeat split; trivial; try (cbn; lia).
      intros a. rewrite read_digit by lia. reflexivity.
    + destruct (IH (n / 10) (String (digit (n mod 10)) acc)) as (ds & E & R & L1 & Lk & _).
      { split; [apply Z.div_pos; lia |].
        apply Z.div_lt_upper_bound; [lia |].
        rewrite <- Z.pow_succ_r by lia. rewrite <- Nat2Z.inj_succ. lia. }
      exists (ds ++ String (digit (n mod 10)) "")%string.
      rewrite E, append_assoc. split; [reflexivity |]. split.
      * intros a. rewrite read_from_append, R, read_digit
          by (pose proof (Z.mod_pos_bound n 10); lia).
        f_equal. rewrite length_append. cbn [String.length].
        rewrite Nat2Z.inj_add, Z.pow_add_r by lia.
        change (10 ^ Z.of_nat 1) with 10.
        pose proof (Z.div_mod n 10). lia.
      * rewrite length_append. cbn [String.length].
        split; [lia |]. split; [| lia].
        intros [| k] Hk; [change (10 ^ Z.of_nat 1) with 10 in Hk; lia |].
        assert (String.length ds <= S k)%nat; [| lia].
        apply Lk. apply Z.div_lt_upper_bound; [lia |].
        rewrite <- Z.pow_succ_r by lia. rewrite <- Nat2Z.inj_succ. exact Hk.
Qed.

Lemma itoa_spec n :
  0 <= n ->
  read_from 0 (itoa n) = Some n
  /\ (1 <= String.length (itoa n))%nat
  /\ (forall k, n < 10 ^ Z.of_nat (S k) -> (String.length (itoa n) <= S k)%nat)
  /\ (10 <= n -> (2 <= String.length (itoa n))%nat).
Proof.
  intros Hn. unfold itoa.
  destruct (@digits_spec (Z.to_nat (Z.log2 n)) n "") as (ds & E & R & L).
  { split; [exact Hn |].
    pose proof (Z.log2_nonneg n).
    rewrite Nat2Z.inj_succ, Z2Nat.id by lia.
    destruct (Z.eq_dec n 0) as [-> | Hnz]; [cbn; lia |].
    destruct (Z.log2_spec n) as [_ H2]; [lia |].
    apply Z.lt_le_trans with (2 ^ Z.succ (Z.log2 n)); [exact H2 |].
    apply Z.pow_le_mono_l. lia. }
  rewrite E, append_empty_r. split; [| exact L]. rewrite R; f_equal; lia.
Qed.

(** [%02d] on a natural number: at least two decimal digits that read
    back as the number, exactly two below one hundred. *)
Lemma pad02d_spec z :
  0 <= z ->
  read_decimal (pad02d z) = Some z
  /\ (2 <= String.length (pad02d z))%nat
  /\ (z < 100 -> String.length (pad02d z) = 2%nat).
Proof.
  intros Hz. unfold pad02d. destruct (Z.ltb_spec z 0); [lia |].
  rewrite Z.abs_eq by lia.
  destruct (itoa_spec Hz) as (R & L1 & Lk & Ltwo).
  destruct (Z.lt_ge_cases z 10) as [Hlt | Hge].
  - pose proof (Lk 0%nat Hlt) as L0.
    destruct (itoa z) as [| c [| c' ds]]; try (cbn in *; lia).
    cbn [String.length Nat.sub zeros append].
    split; [exact R | split; [lia | trivial]].
  - specialize (Ltwo Hge).
    replace (2 - String.length (itoa z))%nat with 0%nat by lia. cbn [zeros append].
    split; [| split; [exact Ltwo |]].
    + destruct (itoa z); [cbn in Ltwo; lia | exact R].
    + intros H100. pose proof (Lk 1%nat H100). lia.
Qed.

(** [Round] to the second, where the rounded value fits a [Duration]. *)
Lemma Round_Second d :
  0 <= d < 9223372036500000000 ->
  Round d Second = (d + 500000000) / 1000000000 * 1000000000.
Proof.
  intros Hd.
  unfold Round, Second, lessThanHalf, int64.to_uint64, int64.sub, int64.add, int64.wrap.
  change (1000000000 <=? 0) with false. cbv iota.
  rewrite Z.rem_mod_nonneg by lia.
  destruct (Z.ltb_spec d 0); [lia |].
  pose proof (Z.mod_pos_bound d 1000000000 ltac:(lia)) as Hr.
  pose proof (Z.div_mod d 1000000000 ltac:(lia)) as Hdm.
  set (r := d mod 1000000000) in *.
  rewrite (Z.mod_small r), (Z.mod_small 1000000000), (Z.mod_small (r + r)) by lia.
  destruct (Z.ltb_spec (r + r) 1000000000).
  - rewrite Z.mod_small by lia.
    assert ((d + 500000000) / 1000000000 = d / 1000000000)
      by (symmetry; apply Z.div_unique with (r + 500000000); lia).
    lia.
  - assert (Hq : (d + 500000000) / 1000000000 = d / 1000000000 + 1)
      by (symmetry; apply Z.div_unique with (r - 500000000); lia).
    rewrite Hq.
    replace ((d + 1000000000 + 2 ^ 63) mod 2 ^ 64 - 2 ^ 63 - r + 2 ^ 63)
      with ((d + 1000000000 + 2 ^ 63) mod 2 ^ 64 - r) by lia.
    rewrite Zminus_mod_idemp_l, Z.mod_small by lia.
    destruct (Z.gtb_spec (d + 1000000000 + 2 ^ 63 - r - 2 ^ 63) d); lia.
Qed.

(** Beyond that, [Round] returns the largest [Duration]. *)
Lemma Round_Second_saturates d :
  9223372036500000000 <= d <= int64.max_int ->
  Round d Second = int64.max_int.
Proof.
  intros Hd.
  unfold Round, Second, lessThanHalf, int64.to_uint64, int64.sub, int64.add,
    int64.wrap, maxDuration, int64.max_int in *.
  change (1000000000 <=? 0) with false. cbv iota.
  rewrite Z.rem_mod_nonneg by lia.
  destruct (Z.ltb_spec d 0); [lia |].
  pose proof (Z.mod_pos_bound d 1000000000 ltac:(lia)) as Hr.
  pose proof (Z.div_mod d 1000000000 ltac:(lia)) as Hdm.
  assert (Hq : d / 1000000000 = 9223372036).
  { symmetry. apply Z.div_unique with (d - 9223372036000000000); lia. }
  set (r := d mod 1000000000) in *.
  rewrite (Z.mod_small r), (Z.mod_small 1000000000), (Z.mod_small (r + r)) by lia.
  destruct (Z.ltb_spec (r + r) 1000000000); [lia |].
  replace ((d + 1000000000 + 2 ^ 63) mod 2 ^ 64 - 2 ^ 63 - r + 2 ^ 63)
    with ((d + 1000000000 + 2 ^ 63) mod 2 ^ 64 - r) by lia.
  rewrite Zminus_mod_idemp_l.
  replace (d + 1000000000 + 2 ^ 63 - r) with (9223372037000000000 - 2 ^ 63 + 1 * 2 ^ 64) by lia.
  rewrite Z.mod_add, Z.mod_small by lia.
  destruct (Z.gtb_spec (9223372037000000000 - 2 ^ 63 - 2 ^ 63) d); lia.
Qed.

(** The display of a whole number of seconds. *)
Lemma format_seconds D secs :
  0 <= secs -> secs * 1000000000 <= D < (secs + 1) * 1000000000 ->
  (fmt.pad02d (Z.quot D Minute) ++ ":" ++ fmt.pad02d (Z.quot (Z.rem D Minute) Second))%string
  = (fmt.pad02d (secs / 60) ++ ":" ++ fmt.pad02d (secs mod 60))%string.
Proof.
  intros Hs HD. unfold Minute, Second.
  rewrite Z.rem_mod_nonneg, !Z.quot_div_nonneg by (try apply Z.mod_pos_bound; lia).
  change (60 * 1000000000) with 60000000000.
  pose proof (Z.div_mod secs 60 ltac:(lia)).
  pose proof (Z.mod_pos_bound secs 60 ltac:(lia)).
  assert (E1 : D / 60000000000 = secs / 60).
  { symmetry. apply Z.div_unique with (D - 60000000000 * (secs / 60)); lia. }
  assert (E2 : D mod 60000000000 = D - 60000000000 * (secs / 60)).
  { symmetry. apply Z.mod_unique with (secs / 60); lia. }
  assert (E3 : (D - 60000000000 * (secs / 60)) / 1000000000 = secs mod 60).
  { symmetry. apply Z.div_unique with (D - secs * 1000000000); lia. }
  now rewrite E1, E2, E3.
Qed.

(** C8 (as amended).  For a duration [d >= 0], [formatDuration d] is
    [%02d] of the minutes, a colon, and [%02d] of the seconds of a whole
    number [secs] of seconds: each field is at least two decimal digits
    that read back as its value, with leading zeros only as padding, and
    the seconds are between [0] and [59].  Below [9223372036.5] s, [secs]
    is [d] rounded to the nearest second, halves up; from there on
    [Round] saturates and [secs] is [d] rounded down. *)
Theorem formatDuration_minutes_seconds d :
  0 <= d <= int64.max_int ->
  exists secs,
    formatDuration d
    = (fmt.pad02d (secs / 60) ++ ":" ++ fmt.pad02d (secs mod 60))%string
    /\ 0 <= secs mod 60 <= 59
    /\ fmt.read_decimal (fmt.pad02d (secs / 60)) = Some (secs / 60)
    /\ (2 <= String.length (fmt.pad02d (secs / 60)))%nat
    /\ fmt.read_decimal (fmt.pad02d (secs mod 60)) = Some (secs mod 60)
    /\ String.length (fmt.pad02d (secs mod 60)) = 2%nat
    /\ (d < 9223372036500000000 ->
        secs = (d + 500000000) / 1000000000
        /\ Z.abs (secs * Second - d) <= 500000000)
    /\ (9223372036500000000 <= d -> secs = d / 1000000000).
Proof.
  intros Hd.
  assert (Hcase : exists secs,
             0 <= secs
             /\ secs * 1000000000 <= Round d Second < (secs + 1) * 1000000000
             /\ (d < 9223372036500000000 ->
                 secs = (d + 500000000) / 1000000000
                 /\ Z.abs (secs * Second - d) <= 500000000)
             /\ (9223372036500000000 <= d -> secs = d / 1000000000)).
  { destruct (Z.lt_ge_cases d 9223372036500000000) as [Hlt | Hge].
    - exists ((d + 500000000) / 1000000000). rewrite Round_Second by lia.
      pose proof (Z.div_mod (d + 500000000) 1000000000 ltac:(lia)).
      pose proof (Z.mod_pos_bound (d + 500000000) 1000000000 ltac:(lia)).
      assert (0 <= (d + 500000000) / 1000000000) by (apply Z.div_pos; lia).
      unfold Second. repeat split; lia.
    - exists (d / 1000000000). rewrite Round_Second_saturates by lia.
      assert (Hq : d / 1000000000 = 9223372036).
      { symmetry. apply Z.div_unique with (d - 9223372036000000000);
          unfold int64.max_int in Hd; lia. }
      rewrite Hq. unfold int64.max_int. repeat split; lia. }
  destruct Hcase as (secs & Hs & HD & Hnear & Hsat).
  exists secs. unfold formatDuration. rewrite (format_seconds Hs HD).
  pose proof (Z.mod_pos_bound secs 60 ltac:(lia)) as Hm.
  assert (Hq : 0 <= secs / 60) by (apply Z.div_pos; lia).
  destruct (@pad02d_spec (secs / 60) Hq) as (Rm & Lm & _).
  destruct (@pad02d_spec (secs mod 60) ltac:(lia)) as (Rs & _ & Ls).
  split; [reflexivity |]. split; [lia |]. split; [exact Rm |].
  split; [exact Lm |]. split; [exact Rs |]. split; [apply Ls; lia |].
  split; assumption.
Qed.

Lemma formatDuration_minutes_seconds_witness :
  exists secs,
    formatDuration 125500000000
    = (fmt.pad02d (secs / 60) ++ ":" ++ fmt.pad02d (secs mod 60))%string
    /\ 0 <= secs mod 60 <= 59
    /\ fmt.read_decimal (fmt.pad02d (secs / 60)) = Some (secs / 60)
    /\ (2 <= String.length (fmt.pad02d (secs / 60)))%nat
    /\ fmt.read_decimal (fmt.pad02d (secs mod 60)) = Some (secs mod 60)
    /\ String.length (fmt.pad02d (secs mod 60)) = 2%nat
    /\ (125500000000 < 9223372036500000000 ->
        secs = (125500000000 + 500000000) / 1000000000
        /\ Z.abs (secs * Second - 125500000000) <= 500000000)
    /\ (9223372036500000000 <= 125500000000 -> secs = 125500000000 / 1000000000).
Proof.
  apply (@formatDuration_minutes_seconds 125500000000).
  unfold int64.max_int. lia.
Defined.

(** C8 as stated fails.  The largest duration, [9223372036.854775807] s,
    is nearest to [9223372037] s, which would read [153722867:17];
    [Round] cannot represent that and returns the duration unchanged, so
    the display shows [16] seconds. *)
Lemma formatDuration_saturates :
  0 <= int64.max_int
  /\ formatDuration int64.max_int = "153722867:16"%string
  /\ (int64.max_int + 500000000) / 1000000000 = 9223372037
  /\ (fmt.pad02d (9223372037 / 60) ++ ":" ++ fmt.pad02d (9223372037 mod 60))%string
     = "153722867:17"%string.
Proof. repeat split; vm_compute; trivial; discriminate. Qed.
End FormatFacts.

(* ================================================================== *)
(** * Properties of the rendered bar *)

Section ViewFacts.
Import float64 time components.
Local Open Scope Z_scope.

Lemma of_int_opp z : (of_int (- z) == - of_int z)%Q.
Proof.
  unfold of_int. assert (E : (inject_Z (- z) == - inject_Z z)%Q)
    by (rewrite inject_Z_opp; reflexivity).
  now rewrite (round_comp E), round_opp.
Qed.

Lemma div_pos_divisor x t :
  0 < t -> div x (of_int t) = Some (round (x / of_int t)).
Proof.
  intros Ht. unfold div. pose proof (of_int_pos Ht).
  destruct (Qeq_bool (of_int t) 0) eqn:E; trivial.
  apply Qeq_bool_iff in E. lra.
Qed.

Lemma gt_false x y : (x <= y)%Q -> gt x y = false.
Proof.
  intros H. unfold gt. apply Qle_bool_iff in H. now rewrite H.
Qed.

Lemma gt_true x y : (y < x)%Q -> gt x y = true.
Proof.
  intros H. unfold gt. destruct (Qle_bool x y) eqn:E; trivial.
  apply Qle_bool_iff in E. lra.
Qed.

Lemma view_percent_bounds p :
  0 <= Current p ->
  exists pc, view_percent p = Some pc /\ (0 <= pc <= 1)%Q.
Proof.
  intros Hc. unfold view_percent.
  destruct (Z.gtb_spec (Total p) 0) as [Ht | Ht].
  - rewrite (div_pos_divisor _ Ht).
    set (q := round (of_int (Current p) / of_int (Total p))).
    assert (Hq : (0 <= q)%Q).
    { apply round_nonneg. pose proof (of_int_pos Ht). pose proof (of_int_nonneg Hc).
      apply Qle_shift_div_l; lra. }
    destruct (Qlt_le_dec 1 q) as [H1 | H1].
    + rewrite (gt_true H1). exists 1%Q. split; trivial. lra.
    + rewrite (gt_false H1). exists q. split; trivial. lra.
  - exists 0%Q. split; [reflexivity | lra].
Qed.

Lemma view_percent_negative p :
  0 < Total p -> Current p <= - Total p ->
  exists pc, view_percent p = Some pc /\ (pc <= - (1))%Q.
Proof.
  intros Ht Hc. unfold view_percent.
  destruct (Z.gtb_spec (Total p) 0); [| lia].
  rewrite (div_pos_divisor _ Ht).
  set (q := round (of_int (Current p) / of_int (Total p))).
  assert (Hq : (q <= - (1))%Q).
  { apply Qle_trans with (round (- (1))); [| now vm_compute].
    apply round_mono. pose proof (of_int_pos Ht).
    assert (of_int (Current p) <= - of_int (Total p))%Q
      by (rewrite <- of_int_opp; now apply of_int_mono).
    apply Qle_shift_div_r; lra. }
  rewrite gt_false by lra. now exists q.
Qed.

Lemma bar_width_bounds w :
  let bw := int64.sub w 14 in
  10 <= (if bw <? 10 then 10 else bw) <= int64.max_int.
Proof.
  cbv zeta. pose proof (wrap_range (w - 14)) as [_ H]. unfold int64.sub.
  destruct (Z.ltb_spec (int64.wrap (w - 14)) 10); unfold int64.max_int in *; lia.
Qed.

Lemma layout_width_bounds w : 10 <= layout_width w <= int64.max_int.
Proof. exact (bar_width_bounds w). Qed.

Lemma layout_width_plain w :
  int64.in_range (w - 14) -> layout_width w = Z.max 10 (w - 14).
Proof.
  intros H. unfold layout_width, int64.sub. rewrite (wrap_in_range H).
  destruct (Z.ltb_spec (w - 14) 10); lia.
Qed.

Lemma sub_one_in_range bw :
  10 <= bw <= int64.max_int -> int64.sub bw 1 = bw - 1.
Proof.
  intros H. apply wrap_in_range.
  unfold int64.in_range, int64.min_int, int64.max_int in *. lia.
Qed.

Lemma empty_count bw head :
  10 <= bw <= int64.max_int -> 0 <= head <= bw - 1 ->
  int64.sub (int64.sub bw head) 1 = bw - head - 1.
Proof.
  intros Hb Hh. unfold int64.sub.
  rewrite (@wrap_in_range (bw - head)), (@wrap_in_range (bw - head - 1));
    unfold int64.in_range, int64.min_int, int64.max_int in *; lia.
Qed.

(** The fraction of [View] before its clamp. *)
Lemma view_percent_unfold p :
  view_percent p
  = Some (let q := if Total p >? 0
                   then round (of_int (Current p) / of_int (Total p))
                   else 0%Q in
          if gt q 1%Q then 1%Q else q).
Proof.
  unfold view_percent. destruct (Z.gtb_spec (Total p) 0) as [Ht | Ht]; [| reflexivity].
  now rewrite (div_pos_divisor _ Ht).
Qed.

Lemma Repeat_fits str n :
  0 <= n -> Z.of_nat (String.length str) * n <= int64.max_int ->
  Repeat str n = Some (String.concat "" (repeat str (Z.to_nat n))).
Proof.
  intros H Hf. unfold Repeat. destruct (Z.ltb_spec n 0); [lia |].
  destruct (Z.gtb_spec (Z.of_nat (String.length str) * n) int64.max_int); [lia | trivial].
Qed.

Lemma Repeat_negative str n : n < 0 -> Repeat str n = None.
Proof. intros H. unfold Repeat. destruct (Z.ltb_spec n 0); [trivial | lia]. Qed.

Lemma Repeat_overflow str n :
  int64.max_int < Z.of_nat (String.length str) * n -> Repeat str n = None.
Proof.
  intros H. unfold Repeat. destruct (n <? 0); trivial.
  destruct (Z.gtb_spec (Z.of_nat (String.length str) * n) int64.max_int); [trivial | lia].
Qed.

(** What [View] makes of segment counts that are not negative: the bar,
    when both rows fit an [int]; a panic of [strings.Repeat] otherwise. *)
Lemma View_of_segments p bw filled empty :
  view_segments p = Some (bw, filled, empty) -> 0 <= filled -> 0 <= empty ->
  (Z.of_nat (String.length (BarChar p)) * filled <= int64.max_int ->
   Z.of_nat (String.length (EmptyChar p)) * empty <= int64.max_int ->
   View p
   = Some (set_layout p 14 bw,
           Style p
             (FilledStyle p (String.concat "" (repeat (BarChar p) (Z.to_nat filled)))
              ++ HeadStyle p head_glyph
              ++ EmptyStyle p (String.concat "" (repeat (EmptyChar p) (Z.to_nat empty)))
              ++ time_display p)%string))
  /\ (int64.max_int < Z.of_nat (String.length (BarChar p)) * filled
      \/ int64.max_int < Z.of_nat (String.length (EmptyChar p)) * empty ->
      View p = None).
Proof.
  intros Eseg Hf He. unfold View. rewrite Eseg. split.
  - intros Ff Fe. rewrite !Repeat_fits by trivial.
    unfold lipgloss.Render, time_display. destruct (ShowTime p).
    + now rewrite !append_assoc.
    + now rewrite append_empty_r.
  - intros [H | H].
    + now rewrite Repeat_overflow.
    + rewrite (Repeat_overflow _ _ H). now destruct (Repeat (BarChar p) filled).
Qed.

(** A position before the start of the track: the fraction [View]
    computes is the negative of a float within one part in [2^53] of
    [- Current / Total]. *)
Lemma view_percent_before_start p :
  0 < Total p <= 2 ^ 53 -> - 2 ^ 53 <= Current p < 0 ->
  exists pc,
    view_percent p = Some pc
    /\ (inject_Z (- Current p) - inject_Z (- Current p) * 2 ^ (-53)
        <= - pc * inject_Z (Total p))%Q
    /\ (- pc * inject_Z (Total p)
        <= inject_Z (- Current p) + inject_Z (- Current p) * 2 ^ (-53))%Q.
Proof.
  intros [Ht Ht53] [Hc53 Hc]. rewrite view_percent_unfold.
  destruct (Z.gtb_spec (Total p) 0); [| lia]. cbv zeta.
  set (c := Current p) in *. set (t := Total p) in *.
  assert (Hft : (of_int t == inject_Z t)%Q) by (apply round_Z_exact; lia).
  assert (Hfc : (of_int c == inject_Z c)%Q) by (apply round_Z_exact; lia).
  assert (HT : (1 <= inject_Z t <= 2 ^ 53)%Q).
  { rewrite <- (pow2_inject (k := 53)) by lia.
    change 1%Q with (inject_Z 1). rewrite <- !Zle_Qle. lia. }
  assert (HC : (1 <= inject_Z (- c) <= 2 ^ 53)%Q).
  { rewrite <- (pow2_inject (k := 53)) by lia.
    change 1%Q with (inject_Z 1). rewrite <- !Zle_Qle. lia. }
  set (a := (inject_Z (- c) / inject_Z t)%Q).
  assert (Ea : (a * inject_Z t == inject_Z (- c))%Q) by (subst a; field; lra).
  assert (Eq : (of_int c / of_int t == - a)%Q).
  { subst a. rewrite Hfc, Hft, inject_Z_opp. field. lra. }
  set (u := (2 ^ (-53))%Q).
  assert (Hu : (0 < u)%Q) by apply pow2_pos.
  assert (Hu53 : (u * 2 ^ 53 == 1)%Q) by now vm_compute.
  assert (Ha : (u <= a)%Q) by nra.
  assert (Hn : (2 ^ (-1022) <= u)%Q) by (apply pow2_le; lia).
  destruct (@round_error a ltac:(lra)) as [P1 P2]. fold u in P1, P2.
  assert (Er : (round (of_int c / of_int t) == - round a)%Q)
    by (rewrite (round_comp Eq); apply round_opp).
  assert (Hneg : (round (of_int c / of_int t) <= 1)%Q).
  { rewrite Er. assert (0 <= round a)%Q by (apply round_nonneg; lra). lra. }
  rewrite (gt_false Hneg).
  exists (round (of_int c / of_int t)). split; [reflexivity |].
  rewrite Er, Qopp_opp. split; nra.
Qed.

(** C6 (as amended).  With [Current >= 0], any [Total], and a [Width]
    whose bar width [Width - 14] neither wraps around nor rounds to
    [2^63] as a float, the segment counts of [View] are non-negative and
    [filled + 1 + empty = barWidth >= 10]: no [Repeat] is handed a
    negative count, the bar has [barWidth] glyphs, and [View] returns it
    when both rows fit an [int], memory permitting (it panics in
    [strings.Repeat] when one does not).  A negative [Current] makes [filled] negative, and [View]
    panic, when [Total > 0] and [Current <= - Total], and already when
    [Current * barWidth <= - (Total + 2)]; with
    [Current * barWidth >= - (Total - 2)] it leaves [filled] at [0] (the
    last two for [Total], [- Current] and [barWidth] up to [2^53]). *)
Theorem View_segments_fill_the_bar p :
  (0 <= Current p ->
   int64.min_int + 14 <= Width p <= 2 ^ 63 - 499 ->
   exists bw filled empty,
     view_segments p = Some (bw, filled, empty)
     /\ 10 <= bw /\ 0 <= filled /\ 0 <= empty /\ filled + 1 + empty = bw
     /\ length (bar_glyphs p filled empty) = Z.to_nat bw
     /\ (Z.of_nat (String.length (BarChar p)) * filled <= int64.max_int ->
         Z.of_nat (String.length (EmptyChar p)) * empty <= int64.max_int ->
         View p
         = Some (set_layout p 14 bw,
                 Style p
                   (FilledStyle p (String.concat "" (repeat (BarChar p) (Z.to_nat filled)))
                    ++ HeadStyle p head_glyph
                    ++ EmptyStyle p (String.concat "" (repeat (EmptyChar p) (Z.to_nat empty)))
                    ++ time_display p)%string))
     /\ (int64.max_int < Z.of_nat (String.length (BarChar p)) * filled
         \/ int64.max_int < Z.of_nat (String.length (EmptyChar p)) * empty ->
         View p = None))
  /\ (0 < Total p -> Current p <= - Total p ->
      exists bw filled empty,
        view_segments p = Some (bw, filled, empty)
        /\ filled < 0
        /\ View p = None)
  /\ (0 < Total p <= 2 ^ 53 -> - 2 ^ 53 <= Current p < 0 ->
      layout_width (Width p) <= 2 ^ 53 ->
      (Current p * layout_width (Width p) <= - (Total p + 2) ->
       exists filled empty,
         view_segments p = Some (layout_width (Width p), filled, empty)
         /\ filled < 0
         /\ View p = None)
      /\ (- (Total p - 2) <= Current p * layout_width (Width p) ->
          view_segments p
          = Some (layout_width (Width p), 0, layout_width (Width p) - 1))).
Proof.
  split; [| split].
  - intros Hc Hw.
    destruct (view_percent_bounds p Hc) as (pc & Epc & Hpc0 & Hpc1).
    assert (Esub : int64.sub (Width p) 14 = Width p - 14).
    { apply wrap_in_range. unfold int64.in_range, int64.min_int, int64.max_int in *. lia. }
    set (bw := if int64.sub (Width p) 14 <? 10 then 10 else int64.sub (Width p) 14).
    assert (Hbw : 10 <= bw <= 2 ^ 63 - 513).
    { subst bw. rewrite Esub. destruct (Z.ltb_spec (Width p - 14) 10); lia. }
    set (x := mul (of_int bw) pc).
    assert (Hx : (0 <= x <= inject_Z (2 ^ 63 - 1024))%Q).
    { pose proof (@of_int_nonneg bw ltac:(lia)) as Hfb. split.
      - apply round_nonneg. now apply Qmult_le_0_compat.
      - apply Qle_trans with (round (of_int (2 ^ 63 - 513))); [| now vm_compute].
        apply round_mono.
        apply Qle_trans with (of_int bw); [| apply of_int_mono; lia].
        rewrite <- (Qmult_1_r (of_int bw)) at 2.
        rewrite !(Qmult_comm (of_int bw)). now apply Qmult_le_compat_r. }
    destruct (to_int64_in_range (lo := 0) (hi := 2 ^ 63 - 1024) (proj1 Hx) (proj2 Hx))
      as [Econv Htr]; [unfold int64.min_int; lia | unfold int64.max_int; lia |].
    set (headPos := if to_int64 x >=? bw then int64.sub bw 1 else to_int64 x).
    assert (Hhead : 0 <= headPos <= bw - 1).
    { subst headPos. destruct (Z.geb_spec (to_int64 x) bw).
      - unfold int64.sub. rewrite wrap_in_range;
          unfold int64.in_range, int64.min_int, int64.max_int; lia.
      - rewrite Econv in *. lia. }
    assert (Eempty : int64.sub (int64.sub bw headPos) 1 = bw - headPos - 1).
    { unfold int64.sub.
      rewrite (@wrap_in_range (bw - headPos)),  (@wrap_in_range (bw - headPos - 1));
        unfold int64.in_range, int64.min_int, int64.max_int; lia. }
    assert (Eseg : view_segments p = Some (bw, headPos, bw - headPos - 1)).
    { unfold view_segments. rewrite Epc. fold bw. fold x. fold headPos.
      now rewrite Eempty. }
    exists bw, headPos, (bw - headPos - 1).
    split; [exact Eseg |]. split; [lia |]. split; [lia |]. split; [lia |].
    split; [lia |]. split.
    + unfold bar_glyphs. rewrite !length_app, !repeat_length. cbn [length]. lia.
    + apply View_of_segments; trivial; lia.
  - intros Ht Hc.
    destruct (view_percent_negative p Ht Hc) as (pc & Epc & Hpc).
    pose proof (bar_width_bounds (Width p)) as Hbw. cbv zeta in Hbw.
    set (bw := if int64.sub (Width p) 14 <? 10 then 10 else int64.sub (Width p) 14) in *.
    set (x := mul (of_int bw) pc).
    assert (Hx : (x <= inject_Z (- 10))%Q).
    { apply Qle_trans with (round (- (10))); [| now vm_compute].
      apply round_mono.
      assert (10 <= of_int bw)%Q.
      { apply Qle_trans with (of_int 10); [now vm_compute | apply of_int_mono; lia]. }
      nra. }
    assert (Hhead : to_int64 x < 0).
    { apply trunc_mono in Hx. rewrite trunc_Z in Hx. unfold to_int64.
      destruct ((int64.min_int <=? trunc x) && (trunc x <=? int64.max_int));
        [lia | reflexivity]. }
    assert (Eseg : view_segments p
                   = Some (bw, to_int64 x, int64.sub (int64.sub bw (to_int64 x)) 1)).
    { unfold view_segments. rewrite Epc. fold bw. fold x.
      destruct (Z.geb_spec (to_int64 x) bw); [lia | reflexivity]. }
    do 3 eexists. split; [exact Eseg |]. split; [exact Hhead |].
    unfold View. rewrite Eseg. now rewrite Repeat_negative.
  - intros Ht Hc Hb53.
    destruct (view_percent_before_start p Ht Hc) as (pc & Epc & Q1 & Q2).
    pose proof (layout_width_bounds (Width p)) as Hb.
    set (bw := layout_width (Width p)) in *.
    set (c := Current p) in *. set (t := Total p) in *.
    assert (Hfb : (of_int bw == inject_Z bw)%Q) by (apply round_Z_exact; lia).
    assert (HT : (1 <= inject_Z t <= 2 ^ 53)%Q).
    { rewrite <- (pow2_inject (k := 53)) by lia.
      change 1%Q with (inject_Z 1). rewrite <- !Zle_Qle. lia. }
    assert (HC : (1 <= inject_Z (- c))%Q).
    { change 1%Q with (inject_Z 1). rewrite <- Zle_Qle. lia. }
    assert (HB : (10 <= inject_Z bw)%Q).
    { change 10%Q with (inject_Z 10). rewrite <- Zle_Qle. lia. }
    set (u := (2 ^ (-53))%Q) in *.
    assert (Hu : (0 < u)%Q) by apply pow2_pos.
    assert (Hu53 : (u * 2 ^ 53 == 1)%Q) by now vm_compute.
    set (qa := (- pc)%Q) in *.
    assert (Hqa : (0 <= qa)%Q) by nra.
    assert (Ex : (mul (of_int bw) pc == - round (inject_Z bw * qa))%Q).
    { unfold mul. rewrite <- round_opp. apply round_comp. rewrite Hfb.
      subst qa. ring. }
    assert (Eprod : (inject_Z (- c) * inject_Z bw == inject_Z (- (c * bw)))%Q).
    { rewrite <- inject_Z_mult. apply inject_Z_injective. f_equal. ring. }
    assert (Eseg0 : view_segments p
                    = Some (bw,
                            (if to_int64 (mul (of_int bw) pc) >=? bw
                             then int64.sub bw 1
                             else to_int64 (mul (of_int bw) pc)),
                            int64.sub
                              (int64.sub bw
                                 (if to_int64 (mul (of_int bw) pc) >=? bw
                                  then int64.sub bw 1
                                  else to_int64 (mul (of_int bw) pc))) 1)).
    { unfold view_segments. rewrite Epc. reflexivity. }
    split.
    + intros Hfar.
      assert (Hz : (inject_Z t + 2 <= inject_Z (- (c * bw)))%Q).
      { change 2%Q with (inject_Z 2). rewrite <- inject_Z_plus, <- Zle_Qle. lia. }
      assert (Hone : (1 <= inject_Z bw * qa)%Q).
      { assert (inject_Z t * 1 <= inject_Z t * (inject_Z bw * qa))%Q; [| nra].
        rewrite <- Eprod in Hz. nra. }
      assert (Hx : (mul (of_int bw) pc <= inject_Z (- 1))%Q).
      { rewrite Ex. apply round_mono in Hone.
        assert (round 1 == 1)%Q by now vm_compute.
        change (inject_Z (- 1)) with (- (1))%Q. lra. }
      assert (Hhead : to_int64 (mul (of_int bw) pc) < 0).
      { apply trunc_mono in Hx. rewrite trunc_Z in Hx. unfold to_int64.
        destruct ((int64.min_int <=? trunc (mul (of_int bw) pc))
                  && (trunc (mul (of_int bw) pc) <=? int64.max_int));
          [lia | reflexivity]. }
      destruct (Z.geb_spec (to_int64 (mul (of_int bw) pc)) bw); [lia |].
      do 2 eexists. split; [exact Eseg0 |]. split; [exact Hhead |].
      unfold View. rewrite Eseg0. now rewrite Repeat_negative.
    + intros Hnear.
      assert (Hz : (inject_Z (- (c * bw)) <= inject_Z t - 2)%Q).
      { assert (H : (inject_Z (- (c * bw)) <= inject_Z (t + - 2))%Q)
          by (rewrite <- Zle_Qle; lia).
        rewrite inject_Z_plus in H. change (inject_Z (- 2)) with (- (2))%Q in H. lra. }
      assert (Hsmall : (inject_Z bw * qa <= 1 - u)%Q).
      { assert (inject_Z t * (inject_Z bw * qa) <= inject_Z t * (1 - u))%Q; [| nra].
        rewrite <- Eprod in Hz. nra. }
      assert (Hx : (- (1) < mul (of_int bw) pc <= 0)%Q).
      { rewrite Ex. apply round_mono in Hsmall.
        assert (round (1 - u) <= 1 - u)%Q by now vm_compute.
        assert (0 <= round (inject_Z bw * qa))%Q by (apply round_nonneg; nra).
        lra. }
      rewrite Eseg0.
      assert (Eh : to_int64 (mul (of_int bw) pc) = 0).
      { unfold to_int64. now rewrite (trunc_above_minus_one (proj1 Hx) (proj2 Hx)). }
      rewrite Eh. destruct (Z.geb_spec 0 bw); [lia |].
      rewrite empty_count by lia. do 3 f_equal. lia.
Qed.

Lemma View_segments_fill_the_bar_witness :
  (exists bw filled empty,
      view_segments (bar 40 30000000000 60000000000 0) = Some (bw, filled, empty)
      /\ 10 <= bw /\ 0 <= filled /\ 0 <= empty /\ filled + 1 + empty = bw
      /\ length (bar_glyphs (bar 40 30000000000 60000000000 0) filled empty)
         = Z.to_nat bw
      /\ View (bar 40 30000000000 60000000000 0)
         = Some (set_layout (bar 40 30000000000 60000000000 0) 14 bw,
                 ((String.concat "" (repeat "="%string (Z.to_nat filled)))
                    ++ head_glyph
                    ++ (String.concat "" (repeat "-"%string (Z.to_nat empty)))
                    ++ time_display (bar 40 30000000000 60000000000 0))%string))
  /\ (exists bw filled empty,
         view_segments (bar 40 (- 60000000000) 60000000000 0) = Some (bw, filled, empty)
         /\ filled < 0
         /\ View (bar 40 (- 60000000000) 60000000000 0) = None)
  /\ (exists filled empty,
         view_segments (bar 80 (- 20000000) 1000000000 0) = Some (66, filled, empty)
         /\ filled < 0
         /\ View (bar 80 (- 20000000) 1000000000 0) = None)
  /\ view_segments (bar 80 (- 15000000) 1000000000 0) = Some (66, 0, 65).
Proof.
  split; [| split; [| split]].
  - destruct (proj1 (View_segments_fill_the_bar (bar 40 30000000000 60000000000 0)))
      as (bw & filled & empty & Eseg & Hbw & Hf & He & Hsum & Hlen & Hview & _).
    + cbn. lia.
    + cbn. unfold int64.min_int. lia.
    + exists bw, filled, empty. repeat (split; [assumption |]).
      assert (Hmax : bw <= int64.max_int).
      { vm_compute in Eseg. inversion Eseg. discriminate. }
      apply Hview; cbn [bar BarChar EmptyChar String.length Z.of_nat]; lia.
  - apply (View_segments_fill_the_bar (bar 40 (- 60000000000) 60000000000 0)).
    + reflexivity.
    + cbn. lia.
  - apply (View_segments_fill_the_bar (bar 80 (- 20000000) 1000000000 0)).
    + cbn. lia.
    + cbn. lia.
    + vm_compute. discriminate.
    + vm_compute. discriminate.
  - apply (View_segments_fill_the_bar (bar 80 (- 15000000) 1000000000 0)).
    + cbn. lia.
    + cbn. lia.
    + vm_compute. discriminate.
    + vm_compute. discriminate.
Defined.

(** C6 as stated fails on both sides.  A bar as wide as the largest
    [int], half played, has its head position taken from [2^63] as a
    float, which converts to the smallest [int]: [filled] is negative
    although [Current >= 0].  And a [Current] of [-1] ns in a track of one
    second leaves [filled] at [0]: the bar is drawn. *)
Lemma View_precondition_is_not_Current :
  (0 <= Current (bar int64.max_int 1 1 0)
   /\ view_segments (bar int64.max_int 1 1 0)
      = Some (2 ^ 63 - 15, int64.min_int, - 16)
   /\ View (bar int64.max_int 1 1 0) = None)
  /\ (Current (bar 80 (- 1) 1000000000 0) < 0
      /\ view_segments (bar 80 (- 1) 1000000000 0) = Some (66, 0, 65)
      /\ View (bar 80 (- 1) 1000000000 0) <> None).
Proof.
  repeat split; try (vm_compute; reflexivity); vm_compute; discriminate.
Qed.
End ViewFacts.

(* ================================================================== *)
(** * More on the loader: paths, extensions, completeness *)

Section LoaderShape.
Import filepath loader.
Local Open Scope string_scope.

(** X1.  [LoadTracks] returns a nil error exactly when no entry of the
    walk fails, and then it returns every audio file under the root, in
    walk order. *)
Theorem LoadTracks_complete_without_error fs root :
  (snd (LoadTracks fs root) = None <-> first_error fs = None)
  /\ (first_error fs = None -> LoadTracks fs root = (audio_files fs root, None)).
Proof.
  destruct (LoadTracks_fact fs root) as (l & E & _ & _ & C).
  rewrite E; cbn [snd]. split.
  - destruct (first_error fs); cbn; split; congruence.
  - intros H. rewrite H, (C H). reflexivity.
Qed.

Lemma LoadTracks_complete_without_error_witness :
  LoadTracks fs_nested "music"
  = (["music/intro.MP3"; "music/live/one.flac"; "music/live/cd2.wav/two.Wav"], None).
Proof.
  apply (LoadTracks_complete_without_error fs_nested "music"). reflexivity.
Defined.

(** ** Distinct paths *)

Lemma elements_nonempty path : elements path <> [].
Proof.
  destruct path as [| c rest]; cbn; [discriminate |].
  destruct (IsPathSeparator c); [discriminate |].
  destruct (elements rest); discriminate.
Qed.

Lemma elements_slash_free e : slash_free e = true -> elements e = [e].
Proof.
  induction e as [| c e IH]; cbn; trivial.
  intros H. apply andb_true_iff in H as [Hc He]. apply negb_true_iff in Hc.
  now rewrite Hc, (IH He).
Qed.

Lemma elements_append a b :
  elements (a ++ String "/" b) = (elements a ++ elements b)%list.
Proof.
  induction a as [| c a IH]; cbn; trivial.
  destruct (IsPathSeparator c); [now rewrite IH |].
  rewrite IH. pose proof (elements_nonempty a).
  destruct (elements a); [congruence | reflexivity].
Qed.

Lemma elements_are_slash_free path : Forall (fun e => slash_free e = true) (elements path).
Proof.
  induction path as [| c rest IH]; cbn; [now repeat constructor |].
  destruct (IsPathSeparator c) eqn:Ec; [now constructor |].
  destruct (elements rest) as [| e es]; [now repeat constructor; cbn; rewrite Ec |].
  inversion IH; subst. constructor; trivial. cbn. now rewrite Ec.
Qed.

Lemma element_true e :
  element e = true ->
  String.eqb e "" = false /\ slash_free e = true
  /\ String.eqb e "." = false /\ String.eqb e ".." = false.
Proof.
  unfold element. rewrite !andb_true_iff, !negb_true_iff. tauto.
Qed.

Lemma clean_step_element rooted out e :
  element e = true -> clean_step rooted out e = e :: out.
Proof.
  intros H. apply element_true in H as (H1 & _ & H2 & H3).
  unfold clean_step. now rewrite H1, H2, H3.
Qed.

Lemma written_ok_dotdots rooted out :
  rooted = false -> Forall (eq "..") out -> written_ok rooted out.
Proof.
  intros Hr H. induction H as [| x out Hx H IH]; [constructor |].
  subst x. now constructor.
Qed.

(** The loop of [Clean] keeps its output in shape. *)
Lemma clean_step_ok rooted out e :
  slash_free e = true -> written_ok rooted out -> written_ok rooted (clean_step rooted out e).
Proof.
  intros He Hok. unfold clean_step.
  destruct (String.eqb_spec e "") as [-> | Hne]; [exact Hok |].
  destruct (String.eqb_spec e ".") as [-> | Hnd]; [exact Hok |]. cbn [orb].
  destruct (String.eqb_spec e "..") as [-> | Hndd].
  - destruct Hok as [| out Hr Hall | top out Htop Hok].
    + destruct rooted; [constructor | now constructor].
    + cbn. constructor; trivial. now constructor.
    + apply element_true in Htop as (_ & _ & _ & H). now rewrite H.
  - constructor; trivial. unfold element. rewrite He.
    apply String.eqb_neq in Hne, Hnd, Hndd. now rewrite Hne, Hnd, Hndd.
Qed.

Lemma fold_clean_ok rooted l : forall out,
  Forall (fun e => slash_free e = true) l -> written_ok rooted out ->
  written_ok rooted (fold_left (clean_step rooted) l out).
Proof.
  induction l as [| e l IH]; intros out Hl Hok; cbn; trivial.
  inversion Hl; subst. apply IH; trivial. now apply clean_step_ok.
Qed.

(** Reading back what was written gives the same elements. *)
Lemma fold_clean_written rooted out :
  written_ok rooted out -> fold_left (clean_step rooted) (rev out) [] = out.
Proof.
  induction out as [| e out IH]; intros H; trivial.
  cbn [rev]. rewrite fold_left_app. cbn [fold_left].
  inversion H as [| out' Hr Hall | e' out' He Hok]; subst.
  - rewrite (IH (written_ok_dotdots eq_refl Hall)).
    destruct Hall as [| x out Hx Hall]; [reflexivity |]. subst x. reflexivity.
  - rewrite (IH Hok). now apply clean_step_element.
Qed.

Lemma written_ok_slash_free rooted out :
  written_ok rooted out ->
  Forall (fun e => slash_free e = true /\ e <> "") out.
Proof.
  induction out as [| e out IH]; intros H; [constructor |].
  inversion H as [| out' Hr Hall | e' out' He Hok]; subst.
  - constructor; [split; [reflexivity | discriminate] |].
    apply IH. now apply written_ok_dotdots.
  - constructor; [| now apply IH].
    apply element_true in He as (H1 & H2 & _). split; trivial.
    now apply String.eqb_neq.
Qed.

Lemma concat_elements (l : list string) :
  l <> [] -> Forall (fun e => slash_free e = true /\ e <> "") l ->
  elements (String.concat "/" l) = l
  /\ exists c rest, String.concat "/" l = String c rest /\ IsPathSeparator c = false.
Proof.
  induction l as [| e l IH]; [congruence |]. intros _ H.
  inversion H as [| ? ? [He Hne] Hl]; subst.
  assert (Hfirst : exists c rest, e = String c rest /\ IsPathSeparator c = false).
  { destruct e as [| c rest]; [congruence |]. exists c, rest. split; trivial.
    cbn in He. apply andb_true_iff in He as [Hc _]. now apply negb_true_iff. }
  destruct l as [| e' l].
  - cbn. split; [now apply elements_slash_free | exact Hfirst].
  - change (String.concat "/" (e :: e' :: l))
      with (e ++ String "/" (String.concat "/" (e' :: l))).
    destruct (IH ltac:(discriminate) Hl) as [E _].
    rewrite elements_append, E, (@elements_slash_free e He). split; [reflexivity |].
    destruct Hfirst as (c & rest & -> & Hc). cbn. eauto.
Qed.

(** A path that [Clean] has written is rooted as asked, is not empty,
    and reads back as the elements written. *)
Lemma written_read_back rooted out :
  written_ok rooted out ->
  let path := written rooted (rev out) in
  path <> "" /\ is_rooted path = rooted
  /\ fold_left (clean_step rooted) (elements path) [] = out.
Proof.
  intros Hok. cbv zeta.
  pose proof (fold_clean_written Hok) as Hfold.
  pose proof (written_ok_slash_free Hok) as Hsf.
  destruct out as [| e out].
  - unfold written. cbn. destruct rooted; cbn; repeat split; discriminate.
  - assert (Hne : rev (e :: out) <> []).
    { cbn. destruct (rev out); discriminate. }
    apply Forall_rev in Hsf.
    destruct (concat_elements Hne Hsf) as (E & c & rest & Ec & Hc).
    unfold written. destruct rooted.
    + cbn [append is_rooted]. change (IsPathSeparator "/") with true.
      repeat split; [discriminate |].
      change (elements (String "/" (String.concat "/" (rev (e :: out)))))
        with ("" :: elements (String.concat "/" (rev (e :: out)))).
      rewrite E. exact Hfold.
    + rewrite Ec. cbn [String.eqb is_rooted]. rewrite <- Ec, E.
      repeat split; trivial. rewrite Ec. discriminate.
Qed.

(** Two paths that [Clean] has written are equal only if their elements
    are. *)
Lemma written_injective rooted out1 out2 :
  written_ok rooted out1 -> written_ok rooted out2 ->
  written rooted (rev out1) = written rooted (rev out2) -> out1 = out2.
Proof.
  intros H1 H2 E.
  destruct (written_read_back H1) as (_ & _ & R1).
  destruct (written_read_back H2) as (_ & _ & R2).
  rewrite E in R1. congruence.
Qed.

(** The elements [Clean] has written for a path, the last one first. *)
Lemma kept_ok path : written_ok (is_rooted path) (rev (kept path)).
Proof.
  unfold kept. rewrite rev_involutive.
  apply fold_clean_ok; [apply elements_are_slash_free | constructor].
Qed.

(** Joining a name to a directory writes the name after the elements of
    the directory. *)
Lemma Join_element dir name :
  element name = true ->
  Join dir name = written (is_rooted dir) (kept dir ++ [name])
  /\ is_rooted (Join dir name) = is_rooted dir
  /\ kept (Join dir name) = (kept dir ++ [name])%list.
Proof.
  intros Hn. pose proof (element_true _ Hn) as (N1 & N2 & N3 & N4).
  assert (E : Join dir name = written (is_rooted dir) (kept dir ++ [name])).
  { unfold Join. destruct (String.eqb_spec dir "") as [-> | Hd].
    - rewrite N1. unfold Clean. rewrite N1.
      assert (Er : is_rooted name = false).
      { destruct name as [| c rest]; [discriminate |].
        cbn in N2. apply andb_true_iff in N2 as [Hc _]. now apply negb_true_iff in Hc. }
      unfold kept. rewrite Er, (@elements_slash_free name N2). cbn [fold_left].
      rewrite (@clean_step_element false [] name Hn). reflexivity.
    - unfold Clean.
      assert (Er : is_rooted (dir ++ "/" ++ name) = is_rooted dir)
        by (destruct dir; [congruence | reflexivity]).
      assert (Ee : String.eqb (dir ++ "/" ++ name) "" = false)
        by (destruct dir; [congruence | reflexivity]).
      rewrite Ee, Er. f_equal. unfold kept. rewrite Er.
      change (dir ++ "/" ++ name) with (dir ++ String "/" name).
      rewrite elements_append, (@elements_slash_free name N2), fold_left_app.
      cbn [fold_left]. now rewrite (@clean_step_element _ _ name Hn). }
  assert (Hok : written_ok (is_rooted dir) (name :: rev (kept dir)))
    by (constructor; [exact Hn | apply kept_ok]).
  destruct (written_read_back Hok) as (_ & R1 & R2).
  cbn [rev] in R1, R2. rewrite rev_involutive in R1, R2. rewrite <- E in R1, R2.
  split; [exact E |]. split; [exact R1 |].
  unfold kept. rewrite R1, R2. cbn [rev]. now rewrite rev_involutive.
Qed.

Lemma written_ok_names rooted l out :
  Forall (fun e => element e = true) l -> written_ok rooted out ->
  written_ok rooted (l ++ out).
Proof.
  intros Hl Hok. induction Hl as [| e l He Hl IH]; cbn; trivial. now constructor.
Qed.

(** The elements of a path followed by names can be written as they are. *)
Lemma names_ok path names :
  Forall (fun e => element e = true) names ->
  written_ok (is_rooted path) (rev (kept path ++ names)).
Proof.
  intros H. rewrite rev_app_distr. apply written_ok_names; [| apply kept_ok].
  now apply Forall_rev.
Qed.

Lemma kept_written path names :
  Forall (fun e => element e = true) names ->
  kept (written (is_rooted path) (kept path ++ names)) = (kept path ++ names)%list.
Proof.
  intros H. destruct (written_read_back (@names_ok path names H)) as (_ & R1 & R2).
  rewrite rev_involutive in R1, R2. unfold kept at 1. rewrite R1, R2.
  apply rev_involutive.
Qed.

Lemma written_names_injective path names1 names2 :
  Forall (fun e => element e = true) names1 ->
  Forall (fun e => element e = true) names2 ->
  written (is_rooted path) (kept path ++ names1)
  = written (is_rooted path) (kept path ++ names2) ->
  names1 = names2.
Proof.
  intros H1 H2 E. apply (f_equal kept) in E.
  rewrite !kept_written in E by assumption. now apply app_inv_head in E.
Qed.

(** The path of an entry below a node is written from the elements of the
    node's path followed by the names that lead to the entry. *)
Lemma entries_below n : forall path p d,
  well_formed n = true ->
  In (p, d) (entries_of path n) ->
  p = path
  \/ exists names,
       names <> [] /\ Forall (fun e => element e = true) names
       /\ p = written (is_rooted path) (kept path ++ names).
Proof.
  induction n as [name | name dirs rderr IH] using node_forall_ind;
    intros path p d Hwf; cbn [entries_of].
  - intros [H | []]. inversion H. now left.
  - intros [H | H]; [inversion H; now left |]. right.
    cbn [well_formed] in Hwf. apply andb_true_iff in Hwf as [_ Hall].
    rewrite forallb_forall in Hall. rewrite Forall_forall in IH.
    apply in_flat_map in H as (d1 & Hd1 & Hin).
    destruct (proj1 (andb_true_iff _ _) (Hall d1 Hd1)) as [Hn1 Hw1].
    destruct (@Join_element path _ Hn1) as (EJ & ER & EK).
    change (node_name d1) with (Name (entry d1)) in *.
    destruct (IH d1 Hd1 _ _ _ Hw1 Hin) as [-> | (names & _ & Hnames & ->)].
    + exists [Name (entry d1)]. split; [discriminate |]. split; [now constructor | exact EJ].
    + exists (Name (entry d1) :: names). split; [discriminate |].
      split; [now constructor |]. rewrite ER, EK, <- app_assoc. reflexivity.
Qed.

Lemma entries_below_child path d1 p d :
  element (node_name d1) = true -> well_formed d1 = true ->
  In (p, d) (entries_of (Join path (node_name d1)) d1) ->
  exists names,
    Forall (fun e => element e = true) names
    /\ p = written (is_rooted path) (kept path ++ node_name d1 :: names).
Proof.
  intros Hn1 Hw1 Hin. destruct (@Join_element path _ Hn1) as (EJ & ER & EK).
  destruct (@entries_below d1 _ _ _ Hw1 Hin) as [-> | (names & _ & Hnames & ->)].
  - exists []. split; [constructor | exact EJ].
  - exists names. split; trivial. rewrite ER, EK, <- app_assoc. reflexivity.
Qed.

Lemma distinct_cons x rest :
  distinct (x :: rest) = true -> ~ In x rest /\ distinct rest = true.
Proof.
  cbn. intros H. apply andb_true_iff in H as [Hx Hr]. split; trivial.
  intros Hin. apply negb_true_iff in Hx.
  assert (existsb (String.eqb x) rest = true); [| congruence].
  apply existsb_exists. exists x. split; [exact Hin | apply String.eqb_refl].
Qed.

Lemma entries_distinct n : forall path,
  well_formed n = true -> NoDup (map fst (entries_of path n)).
Proof.
  induction n as [name | name dirs rderr IH] using node_forall_ind;
    intros path Hwf; cbn [entries_of map fst].
  - constructor; [intros [] | constructor].
  - cbn [well_formed] in Hwf. apply andb_true_iff in Hwf as [Hnames Hall].
    rewrite forallb_forall in Hall. rewrite Forall_forall in IH.
    constructor.
    + intros Hin. apply in_map_iff in Hin as ([p d] & Hp & Hin). cbn in Hp; subst p.
      apply in_flat_map in Hin as (d1 & Hd1 & Hin).
      destruct (proj1 (andb_true_iff _ _) (Hall d1 Hd1)) as [Hn1 Hw1].
      destruct (@entries_below_child path d1 _ _ Hn1 Hw1 Hin) as (names & Hn & E).
      apply (f_equal kept) in E.
      rewrite kept_written in E by now constructor.
      apply (f_equal (@length string)) in E. rewrite length_app in E. cbn in E. lia.
    + clear name rderr. induction dirs as [| d1 rest IHrest]; [constructor |].
      cbn [flat_map]. rewrite map_app.
      cbn [map] in Hnames. apply distinct_cons in Hnames as [Hnot Hrest].
      destruct (proj1 (andb_true_iff _ _) (Hall d1 (or_introl eq_refl))) as [Hs1 Hw1].
      apply NoDup_app.
      * apply IH; [now left | exact Hw1].
      * apply IHrest; trivial.
        -- intros x Hx. apply IH. now right.
        -- intros x Hx. apply Hall. now right.
      * intros p Hp1 Hp2.
        apply in_map_iff in Hp1 as ([p1 e1] & E1 & Hin1). cbn in E1; subst p1.
        apply in_map_iff in Hp2 as ([p2 e2] & E2 & Hin2). cbn in E2; subst p2.
        apply in_flat_map in Hin2 as (d2 & Hd2 & Hin2).
        destruct (proj1 (andb_true_iff _ _) (Hall d2 (or_intror Hd2))) as [Hs2 Hw2].
        destruct (@entries_below_child path d1 _ _ Hs1 Hw1 Hin1) as (l1 & Hl1 & E1).
        destruct (@entries_below_child path d2 _ _ Hs2 Hw2 Hin2) as (l2 & Hl2 & E2).
        rewrite E1 in E2. apply written_names_injective in E2; try now constructor.
        inversion E2 as [[En El]]. apply Hnot. rewrite En. now apply in_map.
Qed.

Lemma NoDup_paths_filter (l : list (string * DirEntry)) keep :
  NoDup (map fst l) -> NoDup (map fst (filter keep l)).
Proof.
  induction l as [| x l IH]; cbn; [constructor |].
  intros H. inversion H as [| ? ? Hnot Hnd]; subst.
  destruct (keep x); cbn; [| now apply IH].
  constructor; [| now apply IH].
  intros Hin. apply Hnot. apply in_map_iff in Hin as (y & Ey & Hy).
  apply filter_In in Hy as [Hy _]. rewrite <- Ey. now apply in_map.
Qed.

(** X2.  On a tree as a file system presents it, where the names in a
    directory are distinct and each is a path element other than [.] and
    [..], the entries under the root have pairwise different paths,
    whatever the root is, with every path below it cleaned by [Join].  So
    the closure is handed no path twice without an error (a directory
    whose listing fails is handed once more, with that error), and
    [LoadTracks] returns no path twice. *)
Theorem LoadTracks_paths_distinct n root :
  well_formed n = true ->
  NoDup (map fst (all_entries (inr n) root))
  /\ NoDup (map fst (reached (inr n) root))
  /\ NoDup (fst (LoadTracks (inr n) root)).
Proof.
  intros Hwf.
  destruct (LoadTracks_fact (inr n) root) as (l & E & R & (rest & P) & _).
  rewrite E, R; cbn [fst].
  pose proof (entries_distinct n root Hwf) as H. cbn [all_entries] in *.
  assert (Hl : NoDup (map fst l)).
  { rewrite P, map_app in H. now apply NoDup_app_remove_r in H. }
  split; [exact H |]. split; [exact Hl | now apply NoDup_paths_filter].
Qed.

Lemma LoadTracks_paths_distinct_witness :
  NoDup (map fst (all_entries fs_nested "./music/"))
  /\ NoDup (map fst (reached fs_nested "./music/"))
  /\ NoDup (fst (LoadTracks fs_nested "./music/")).
Proof.
  apply (@LoadTracks_paths_distinct
           (Dir "music"
              [File "cover.jpg"; File "intro.MP3";
               Dir "live" [File "one.flac";
                           Dir "cd2.wav" [File "two.Wav"; File "notes.txt"] None] None]
              None) "./music/").
  reflexivity.
Defined.

(** ** Extensions *)

Lemma get_append_r (a b : string) i : get (String.length a + i) (a ++ b) = get i b.
Proof. induction a as [| c a IH]; cbn; trivial. Qed.

Lemma substring_all (s : string) : substring 0 (String.length s) s = s.
Proof. induction s as [| c s IH]; cbn; [trivial | now rewrite IH]. Qed.

Lemma substring_append_r (a b : string) m :
  substring (String.length a) m (a ++ b) = substring 0 m b.
Proof. induction a as [| c a IH]; cbn; trivial. Qed.

Lemma substring_suffix (s : string) : forall i,
  exists stem, s = stem ++ substring i (String.length s - i) s.
Proof.
  induction s as [| c s IH]; intros i.
  - exists "". now destruct i.
  - destruct i as [| i].
    + exists "". rewrite Nat.sub_0_r, substring_all. reflexivity.
    + destruct (IH i) as (stem & E). exists (String c stem).
      cbn [String.length Nat.sub substring append]. now rewrite <- E.
Qed.

Lemma ext_from_suffix (path : string) n : exists stem, path = stem ++ ext_from path n.
Proof.
  induction n as [| i IH]; cbn [ext_from].
  - exists path. now rewrite append_empty_r.
  - destruct (get i path) as [c |]; [| exists path; now rewrite append_empty_r].
    destruct (IsPathSeparator c); [exists path; now rewrite append_empty_r |].
    destruct (Ascii.eqb c "."); [apply substring_suffix | exact IH].
Qed.

(** The extension is an end of the path. *)
Lemma Ext_suffix path : exists stem, path = stem ++ Ext path.
Proof. apply ext_from_suffix. Qed.

Lemma get_plain (s : string) : forall k,
  plain_string s = true -> (k < String.length s)%nat ->
  exists c, get k s = Some c /\ plain c = true.
Proof.
  induction s as [| c s IH]; intros k Hp Hk; cbn in *; [lia |].
  apply andb_true_iff in Hp as [Hc Hs].
  destruct k as [| k]; [now exists c |]. apply IH; [exact Hs | lia].
Qed.

(** A dot followed by plain characters at the end of a path is its
    extension. *)
Lemma Ext_dot_plain stem rest :
  plain_string rest = true -> Ext (stem ++ String "." rest) = String "." rest.
Proof.
  intros Hp. unfold Ext. rewrite length_append. cbn [String.length].
  assert (H : forall k, (k <= String.length rest)%nat ->
              ext_from (stem ++ String "." rest) (String.length stem + S k)
              = String "." rest).
  { induction k as [| k IH]; intros Hk.
    - rewrite Nat.add_1_r. cbn [ext_from].
      assert (G : get (String.length stem) (stem ++ String "." rest) = Some "."%char).
      { rewrite <- (Nat.add_0_r (String.length stem)). now rewrite get_append_r. }
      rewrite G. change (IsPathSeparator ".") with false.
      change (Ascii.eqb "." ".") with true. cbv iota.
      rewrite length_append.
      replace (String.length stem + String.length (String "." rest)
               - String.length stem)%nat
        with (String.length (String "." rest)) by lia.
      rewrite substring_append_r. apply substring_all.
    - rewrite Nat.add_succ_r. cbn [ext_from]. rewrite get_append_r. cbn [get].
      destruct (@get_plain rest k Hp ltac:(lia)) as (c & -> & Hc).
      unfold plain in Hc. apply andb_true_iff in Hc as [Hc1 Hc2].
      apply negb_true_iff in Hc1, Hc2. rewrite Hc1, Hc2.
      apply IH. lia. }
  apply H. lia.
Qed.

Lemma lower_byte_dot c : strings.lower_byte c = "."%char -> c = "."%char.
Proof.
  destruct c as [[] [] [] [] [] [] [] []]; vm_compute; intros H;
    trivial; discriminate.
Qed.

Lemma lower_byte_plain c : plain (strings.lower_byte c) = plain c.
Proof. destruct c as [[] [] [] [] [] [] [] []]; reflexivity. Qed.

Lemma ToLower_plain s : plain_string (strings.ToLower s) = plain_string s.
Proof.
  induction s as [| c s IH]; cbn; trivial. now rewrite lower_byte_plain, IH.
Qed.

(** A string that lowers to a dot and plain characters is the extension
    of any path it ends. *)
Lemma Ext_of_lowered stem ext l :
  strings.ToLower ext = String "." l -> plain_string l = true ->
  Ext (stem ++ ext) = ext.
Proof.
  intros E Hl. destruct ext as [| c rest]; [discriminate |].
  cbn in E. inversion E as [[Ec Er]]. apply lower_byte_dot in Ec. subst c.
  apply Ext_dot_plain. now rewrite <- ToLower_plain, Er.
Qed.

(** X3.  The extension test of [LoadTracks] accepts a path exactly when
    the path ends, letter case ignored, in [.mp3], [.flac] or [.wav]:
    what comes before that ending, directories included, plays no part. *)
Theorem audio_ext_suffix path :
  audio_ext path = true <->
  exists stem ext,
    path = stem ++ ext
    /\ (strings.ToLower ext = ".mp3"
        \/ strings.ToLower ext = ".flac"
        \/ strings.ToLower ext = ".wav").
Proof.
  unfold audio_ext. rewrite !orb_true_iff, !String.eqb_eq. split.
  - intros H. destruct (Ext_suffix path) as (stem & E).
    exists stem, (Ext path). split; [exact E | tauto].
  - intros (stem & ext & -> & H).
    assert (E : Ext (stem ++ ext) = ext).
    { destruct H as [H | [H | H]];
        eapply Ext_of_lowered; try exact H; reflexivity. }
    rewrite E. tauto.
Qed.
End LoaderShape.

(* ================================================================== *)
(** * More on the library view: queries, [SetTracks], [Update] *)

Section SearchMore.
Import api views.
Local Open Scope string_scope.

Variables TrackList SearchInput : Type.
Variable SetItems : TrackList -> list Track -> TrackList.
Variable ToLower : string -> string.

(** [filterTracks] hands [SetItems] the selection of the query. *)
Lemma filterTracks_selection (v : LibraryView TrackList SearchInput) query :
  filterTracks SetItems ToLower v query
  = set_items SetItems v (selection ToLower query (AllTracks v)).
Proof.
  unfold filterTracks, selection. destruct (String.eqb query ""); trivial.
  now rewrite append_loop_filter.
Qed.

(** When lowering leaves the empty string empty, the empty query needs no
    case of its own. *)
Lemma selection_filter query tracks :
  ToLower "" = "" ->
  selection ToLower query tracks = filter (matches ToLower (ToLower query)) tracks.
Proof.
  intros H0. unfold selection. destruct (String.eqb_spec query "") as [-> | _]; trivial.
  rewrite filter_all; trivial.
  intros t. unfold matches. rewrite H0. now rewrite Contains_empty.
Qed.

Lemma Contains_trans s mid substr :
  strings.Contains s mid = true -> strings.Contains mid substr = true ->
  strings.Contains s substr = true.
Proof.
  rewrite !Contains_true. intros (b1 & a1 & ->) (b2 & a2 & ->).
  exists (b1 ++ b2), (a2 ++ a1). now rewrite !append_assoc.
Qed.

Lemma filter_subsequence_imp (A : Type) (f g : A -> bool) l :
  (forall x, f x = true -> g x = true) ->
  subsequence (filter f l) (filter g l).
Proof.
  intros H. induction l as [| x l IH]; cbn; [constructor |].
  destruct (f x) eqn:Ef.
  - rewrite (H x Ef). now constructor.
  - destruct (g x); [now constructor | exact IH].
Qed.

(** X4.  The letter case of the query plays no part: two queries that
    [strings.ToLower] maps to the same string give the same view.  This
    holds for every lowering that leaves the empty string empty. *)
Theorem filterTracks_ignores_query_case
    (v : LibraryView TrackList SearchInput) q1 q2 :
  ToLower "" = "" ->
  ToLower q1 = ToLower q2 ->
  filterTracks SetItems ToLower v q1 = filterTracks SetItems ToLower v q2.
Proof.
  intros H0 E. rewrite !filterTracks_selection, !selection_filter by exact H0.
  now rewrite E.
Qed.

(** X5.  Typing more narrows the list: when a query, lowered, occurs
    inside a second query, lowered, the tracks the second selects are
    among those the first selects, in the same order.  This holds for
    every lowering that leaves the empty string empty. *)
Theorem filterTracks_longer_query_narrows
    (v : LibraryView TrackList SearchInput) q1 q2 :
  ToLower "" = "" ->
  occurs_nocase ToLower q1 q2 ->
  filterTracks SetItems ToLower v q1
  = set_items SetItems v (selection ToLower q1 (AllTracks v))
  /\ filterTracks SetItems ToLower v q2
     = set_items SetItems v (selection ToLower q2 (AllTracks v))
  /\ subsequence (selection ToLower q2 (AllTracks v))
                 (selection ToLower q1 (AllTracks v)).
Proof.
  intros H0 Hocc. split; [apply filterTracks_selection |].
  split; [apply filterTracks_selection |].
  rewrite !selection_filter by exact H0.
  apply filter_subsequence_imp. intros t.
  assert (Hq : strings.Contains (ToLower q2) (ToLower q1) = true)
    by now apply Contains_true.
  unfold matches. rewrite !orb_true_iff.
  intros [[H | H] | H]; [left; left | left; right | right];
    eapply Contains_trans; eauto.
Qed.

(** X6.  Every search starts from the whole library: after [SetTracks],
    and after any number of earlier searches, [filterTracks] hands
    [SetItems] the selection of its query from the tracks last given to
    [SetTracks], never from the list a previous search left. *)
Theorem filterTracks_searches_whole_library
    (v : LibraryView TrackList SearchInput) tracks q1 q2 :
  let v0 := SetTracks SetItems v tracks in
  let v1 := filterTracks SetItems ToLower v0 q1 in
  v1 = set_items SetItems v0 (selection ToLower q1 tracks)
  /\ filterTracks SetItems ToLower v1 q2
     = set_items SetItems v1 (selection ToLower q2 tracks)
  /\ AllTracks (filterTracks SetItems ToLower v1 q2) = tracks.
Proof.
  cbv zeta. rewrite !filterTracks_selection. cbn. repeat split.
Qed.
End SearchMore.

Lemma filterTracks_ignores_query_case_witness :
  views.filterTracks (fun (_ : list api.Track) items => items) strings.ToLower
    library_sample "BLUE"
  = views.filterTracks (fun (_ : list api.Track) items => items) strings.ToLower
      library_sample "blue".
Proof.
  apply (@filterTracks_ignores_query_case (list api.Track) string
           (fun _ items => items) strings.ToLower library_sample "BLUE" "blue");
    reflexivity.
Defined.

Lemma filterTracks_longer_query_narrows_witness :
  views.subsequence
    (views.selection strings.ToLower "BLUE" (views.AllTracks library_sample))
    (views.selection strings.ToLower "Blu" (views.AllTracks library_sample)).
Proof.
  apply (@filterTracks_longer_query_narrows (list api.Track) string
           (fun _ items => items) strings.ToLower library_sample "Blu" "BLUE").
  - reflexivity.
  - exists ""%string, "e"%string. reflexivity.
Defined.

(* ================================================================== *)
(** * The key handling of the library view *)

Section UpdateFacts.
Import api views.
Local Open Scope string_scope.

Variables TrackList SearchInput : Type.
Variable SetItems : TrackList -> list Track -> TrackList.
Variable ToLower : string -> string.
Variable UpdateList : TrackList -> tea.Msg -> TrackList.
Variable UpdateSearch : SearchInput -> tea.Msg -> SearchInput.
Variables Focus Blur : SearchInput -> SearchInput.
Variable Value : SearchInput -> string.

(** The two branches on [enter] and [esc] are one call of
    [filterTracks]. *)
Lemma confirm_is_filterTracks (v : LibraryView TrackList SearchInput) :
  (if negb (String.eqb (Value (SearchBar v)) "")
   then filterTracks SetItems ToLower v (Value (SearchBar v))
   else set_items SetItems v (AllTracks v))
  = set_items SetItems v (selection ToLower (Value (SearchBar v)) (AllTracks v)).
Proof.
  destruct (String.eqb_spec (Value (SearchBar v)) "") as [E | _]; cbn [negb].
  - now rewrite E.
  - apply filterTracks_selection.
Qed.

(** X7.  No message changes the library or the geometry of the view:
    [Update] leaves [AllTracks], [Width], [Height] and the two styles as
    they are. *)
Theorem Update_keeps_the_library (v : LibraryView TrackList SearchInput) msg :
  AllTracks (Update SetItems ToLower UpdateList UpdateSearch Focus Blur Value v msg) = AllTracks v
  /\ Width (Update SetItems ToLower UpdateList UpdateSearch Focus Blur Value v msg) = Width v
  /\ Height (Update SetItems ToLower UpdateList UpdateSearch Focus Blur Value v msg) = Height v
  /\ BorderStyle (Update SetItems ToLower UpdateList UpdateSearch Focus Blur Value v msg) = BorderStyle v
  /\ TitleStyle (Update SetItems ToLower UpdateList UpdateSearch Focus Blur Value v msg) = TitleStyle v.
Proof.
  destruct msg as [key |]; [| now repeat split]. unfold Update.
  destruct (Searching v).
  - destruct (String.eqb key "enter" || String.eqb key "esc").
    + rewrite confirm_is_filterTracks. now repeat split.
    + rewrite filterTracks_selection. now repeat split.
  - destruct (String.eqb key "/"); now repeat split.
Qed.

(** X8.  While searching, every key press leaves the track list in step
    with the search box: the items handed to [SetItems] are the selection,
    from the whole library, of the value the search box holds after the
    key press.  This holds on [enter] and [esc] as well, where the box is
    the one [Blur] returns: the list stays filtered by what that box
    holds, and is the whole library only if it holds nothing. *)
Theorem Update_list_follows_search_box
    (v : LibraryView TrackList SearchInput) key :
  Searching v = true ->
  TrackList_ (Update SetItems ToLower UpdateList UpdateSearch Focus Blur Value v (tea.KeyMsg key))
  = SetItems (TrackList_ v)
      (selection ToLower
         (Value (SearchBar (Update SetItems ToLower UpdateList UpdateSearch Focus Blur Value v (tea.KeyMsg key))))
         (AllTracks v)).
Proof.
  intros Hs. unfold Update. rewrite Hs.
  destruct (String.eqb key "enter" || String.eqb key "esc").
  - rewrite confirm_is_filterTracks. reflexivity.
  - rewrite filterTracks_selection. reflexivity.
Qed.

(** X9.  Search mode is left on [enter] and [esc] only and entered on
    [/] only; a message that is not a key press changes nothing. *)
Theorem Update_search_mode (v : LibraryView TrackList SearchInput) msg :
  match msg with
  | tea.KeyMsg key =>
      Searching (Update SetItems ToLower UpdateList UpdateSearch Focus Blur Value v msg)
      = if Searching v
        then negb (String.eqb key "enter" || String.eqb key "esc")
        else String.eqb key "/"
  | tea.OtherMsg => Update SetItems ToLower UpdateList UpdateSearch Focus Blur Value v msg = v
  end.
Proof.
  destruct msg as [key |]; [| reflexivity]. unfold Update.
  destruct (Searching v) eqn:Hs.
  - destruct (String.eqb key "enter" || String.eqb key "esc"); cbn [negb].
    + now rewrite confirm_is_filterTracks.
    + rewrite filterTracks_selection. exact Hs.
  - destruct (String.eqb key "/"); [reflexivity | exact Hs].
Qed.
End UpdateFacts.

Lemma Update_list_follows_search_box_witness :
  views.TrackList_
    (views.Update (fun (_ : list api.Track) items => items) strings.ToLower
       (fun tl _ => tl)
       (fun (sb : string) msg =>
          match msg with
          | tea.KeyMsg key => (sb ++ key)%string
          | tea.OtherMsg => sb
          end)
       (fun sb => sb) (fun sb => sb) (fun sb => sb)
       library_sample (tea.KeyMsg " "))
  = [track_blue_train]
  /\ views.TrackList_
       (views.Update (fun (_ : list api.Track) items => items) strings.ToLower
          (fun tl _ => tl)
          (fun (sb : string) msg =>
             match msg with
             | tea.KeyMsg key => (sb ++ key)%string
             | tea.OtherMsg => sb
             end)
          (fun sb => sb) (fun sb => sb) (fun sb => sb)
          library_sample (tea.KeyMsg "enter"))
     = [track_blue_train; track_so_what].
Proof.
  split.
  - rewrite (@Update_list_follows_search_box (list api.Track) string
               (fun _ items => items) strings.ToLower (fun tl _ => tl)
               (fun (sb : string) msg =>
                  match msg with
                  | tea.KeyMsg key => (sb ++ key)%string
                  | tea.OtherMsg => sb
                  end)
               (fun sb => sb) (fun sb => sb) (fun sb => sb)
               library_sample " " eq_refl).
    reflexivity.
  - rewrite (@Update_list_follows_search_box (list api.Track) string
               (fun _ items => items) strings.ToLower (fun tl _ => tl)
               (fun (sb : string) msg =>
                  match msg with
                  | tea.KeyMsg key => (sb ++ key)%string
                  | tea.OtherMsg => sb
                  end)
               (fun sb => sb) (fun sb => sb) (fun sb => sb)
               library_sample "enter" eq_refl).
    reflexivity.
Defined.

(* ================================================================== *)
(** * More on the rendered bar *)

Section ViewMore.
Import float64 time components.
Local Open Scope Z_scope.

Lemma view_segments_layout p bw filled empty :
  view_segments p = Some (bw, filled, empty) -> bw = layout_width (Width p).
Proof.
  unfold view_segments. destruct (view_percent p); [| discriminate].
  intros H. now inversion H.
Qed.

(** The segments depend on the progress and on [Width], not on the layout
    of an earlier [View]. *)
Lemma view_segments_set_layout p tw bw :
  view_segments (set_layout p tw bw) = view_segments p.
Proof. reflexivity. Qed.

(** What [View] returns when it returns. *)
Lemma View_returns p p' s :
  View p = Some (p', s) ->
  p' = set_layout p 14 (layout_width (Width p)) /\ View p' = Some (p', s).
Proof.
  unfold View. destruct (view_segments p) as [[[bw filled] empty] |] eqn:Eseg;
    [| discriminate].
  pose proof (@view_segments_layout p bw filled empty Eseg) as Ebw.
  destruct (Repeat (BarChar p) filled) as [fb |] eqn:Ef; [| discriminate].
  destruct (Repeat (EmptyChar p) empty) as [eb |] eqn:Ee; [| discriminate].
  intros H. inversion H as [[Ep Es]]. clear H.
  rewrite Ebw. split; [reflexivity |].
  rewrite view_segments_set_layout, Eseg. cbn [BarChar EmptyChar set_layout].
  rewrite Ef, Ee. rewrite <- Ebw. reflexivity.
Qed.

(** X10.  Rendering settles the layout: whenever [View] returns, the bar
    it returns has [timeWidth = 14] and a [barWidth] between [10] and the
    largest [int] that depends on [Width] alone, all other fields are
    those of the receiver, and rendering the returned bar again gives the
    same bar and the same string. *)
Theorem View_settles_layout p p' s :
  View p = Some (p', s) ->
  p' = set_layout p 14 (layout_width (Width p))
  /\ 10 <= BarWidth p' <= int64.max_int
  /\ timeWidth p' = 14
  /\ View p' = Some (p', s).
Proof.
  intros H. destruct (@View_returns p p' s H) as [Ep Hv].
  split; [exact Ep |].
  split; [rewrite Ep; apply layout_width_bounds |].
  split; [rewrite Ep; reflexivity | exact Hv].
Qed.

Lemma View_settles_layout_witness :
  exists p' s,
    View (bar 40 30000000000 60000000000 0) = Some (p', s)
    /\ 10 <= BarWidth p' <= int64.max_int
    /\ View p' = Some (p', s).
Proof.
  destruct (View (bar 40 30000000000 60000000000 0)) as [[p' s] |] eqn:E;
    [| vm_compute in E; discriminate].
  exists p', s. split; [reflexivity |].
  destruct (@View_settles_layout _ p' s E) as (_ & Hb & _ & Hv). now split.
Defined.

(** X11.  With nothing loaded ([Total <= 0]) the bar shows no progress,
    whatever [Current] and [Width] are: the head stands on the first cell,
    followed by [barWidth - 1] empty cells.  [View] returns that bar when
    the row of empty cells fits an [int], memory permitting, and panics in
    [strings.Repeat] when it does not. *)
Theorem View_nothing_loaded p :
  Total p <= 0 ->
  let bw := layout_width (Width p) in
  view_segments p = Some (bw, 0, bw - 1)
  /\ (Z.of_nat (String.length (EmptyChar p)) * (bw - 1) <= int64.max_int ->
      View p
      = Some (set_layout p 14 bw,
              Style p
                (FilledStyle p ""
                 ++ HeadStyle p head_glyph
                 ++ EmptyStyle p (String.concat "" (repeat (EmptyChar p) (Z.to_nat (bw - 1))))
                 ++ time_display p)%string))
  /\ (int64.max_int < Z.of_nat (String.length (EmptyChar p)) * (bw - 1) ->
      View p = None).
Proof.
  intros Ht. cbv zeta. pose proof (layout_width_bounds (Width p)) as Hb.
  assert (Epc : view_percent p = Some 0%Q).
  { unfold view_percent. destruct (Z.gtb_spec (Total p) 0); [lia | reflexivity]. }
  assert (Eseg : view_segments p
                 = Some (layout_width (Width p), 0, layout_width (Width p) - 1)).
  { unfold view_segments. rewrite Epc. fold (layout_width (Width p)).
    rewrite (@to_int64_comp (mul (of_int (layout_width (Width p))) 0%Q) 0%Q)
      by (apply mul_zero_r; reflexivity).
    change (to_int64 0%Q) with 0.
    destruct (Z.geb_spec 0 (layout_width (Width p))); [lia |].
    rewrite empty_count by lia. do 3 f_equal. lia. }
  split; [exact Eseg |].
  destruct (@View_of_segments p _ _ _ Eseg ltac:(lia) ltac:(lia)) as [Hfit Hover].
  split.
  - intros Hf. apply Hfit; [unfold int64.max_int; lia | exact Hf].
  - intros Ho. apply Hover. now right.
Qed.

Lemma View_nothing_loaded_witness :
  view_segments (bar 80 (- 5) 0 0) = Some (66, 0, 65)
  /\ View (bar 80 (- 5) 0 0) <> None.
Proof.
  destruct (@View_nothing_loaded (bar 80 (- 5) 0 0)) as (Eseg & Hfit & _).
  - cbn. lia.
  - split; [exact Eseg |]. rewrite Hfit; [discriminate |].
    vm_compute. discriminate.
Defined.

Lemma to_int64_Z z : int64.in_range z -> to_int64 (inject_Z z) = z.
Proof.
  intros [H1 H2]. unfold to_int64. rewrite trunc_Z.
  destruct (Z.leb_spec int64.min_int z), (Z.leb_spec z int64.max_int); cbn; lia.
Qed.

(** Below the largest integers the conversion to [int] is monotone, also
    where it underflows. *)
Lemma to_int64_mono x y hi :
  (x <= y)%Q -> (y <= inject_Z hi)%Q -> hi <= int64.max_int ->
  to_int64 x <= to_int64 y.
Proof.
  intros Hxy Hy Hhi. pose proof (trunc_mono Hxy) as H1.
  pose proof (trunc_mono Hy) as H2. rewrite trunc_Z in H2. unfold to_int64.
  destruct (Z.leb_spec int64.min_int (trunc x)), (Z.leb_spec (trunc x) int64.max_int),
    (Z.leb_spec int64.min_int (trunc y)), (Z.leb_spec (trunc y) int64.max_int);
    cbn [andb]; unfold int64.min_int, int64.max_int in *; lia.
Qed.

Lemma clamp_one_mono q1 q2 :
  (q1 <= q2)%Q ->
  ((if gt q1 1%Q then 1 else q1) <= (if gt q2 1%Q then 1 else q2))%Q
  /\ ((if gt q2 1%Q then 1 else q2) <= 1)%Q.
Proof.
  intros H.
  destruct (Qlt_le_dec 1 q1) as [H1 | H1], (Qlt_le_dec 1 q2) as [H2 | H2];
    rewrite ?(gt_true H1), ?(gt_false H1), ?(gt_true H2), ?(gt_false H2); lra.
Qed.

Lemma head_bound bw pc :
  0 <= bw <= 2 ^ 63 - 513 -> (pc <= 1)%Q ->
  (mul (of_int bw) pc <= inject_Z (2 ^ 63 - 1024))%Q.
Proof.
  intros Hb Hpc. pose proof (@of_int_nonneg bw ltac:(lia)) as Hfb.
  apply Qle_trans with (round (of_int (2 ^ 63 - 513))); [| now vm_compute].
  apply round_mono.
  apply Qle_trans with (of_int bw); [| apply of_int_mono; lia].
  rewrite <- (Qmult_1_r (of_int bw)) at 2.
  rewrite !(Qmult_comm (of_int bw)). now apply Qmult_le_compat_r.
Qed.

(** X12.  The head never moves back as playback advances: for a fixed
    [Total] and a [Width] in range, a later position set with
    [SetProgress] gives at least as many filled cells. *)
Theorem View_head_never_moves_back p c1 c2 t :
  int64.min_int + 14 <= Width p <= 2 ^ 63 - 499 ->
  c1 <= c2 ->
  exists bw f1 e1 f2 e2,
    view_segments (SetProgress p c1 t) = Some (bw, f1, e1)
    /\ view_segments (SetProgress p c2 t) = Some (bw, f2, e2)
    /\ f1 <= f2.
Proof.
  intros Hw Hc.
  assert (Hwr : int64.in_range (Width p - 14))
    by (unfold int64.in_range, int64.min_int, int64.max_int in *; lia).
  pose proof (@layout_width_plain (Width p) Hwr) as Ebw.
  pose proof (layout_width_bounds (Width p)) as Hb.
  unfold view_segments. rewrite !view_percent_unfold.
  cbn [SetProgress Width Current Total]. fold (layout_width (Width p)).
  set (bw := layout_width (Width p)) in *.
  set (q1 := if t >? 0 then round (of_int c1 / of_int t) else 0%Q).
  set (q2 := if t >? 0 then round (of_int c2 / of_int t) else 0%Q).
  assert (Hq : (q1 <= q2)%Q).
  { subst q1 q2. destruct (Z.gtb_spec t 0) as [Ht | Ht]; [| lra].
    apply round_mono. pose proof (of_int_pos Ht). pose proof (of_int_mono Hc).
    apply Qmult_le_compat_r; [assumption |].
    apply Qlt_le_weak, Qinv_lt_0_compat. lra. }
  cbv zeta. destruct (clamp_one_mono Hq) as [Hpc Hpc1].
  set (pc1 := if gt q1 1%Q then 1%Q else q1) in *.
  set (pc2 := if gt q2 1%Q then 1%Q else q2) in *.
  assert (Hh : to_int64 (mul (of_int bw) pc1) <= to_int64 (mul (of_int bw) pc2)).
  { apply to_int64_mono with (hi := 2 ^ 63 - 1024).
    - apply mul_mono_r; [apply of_int_nonneg; lia | exact Hpc].
    - apply head_bound; [lia | exact Hpc1].
    - unfold int64.max_int. lia. }
  do 5 eexists. split; [reflexivity |]. split; [reflexivity |].
  rewrite (@sub_one_in_range bw Hb).
  destruct (Z.geb_spec (to_int64 (mul (of_int bw) pc1)) bw),
    (Z.geb_spec (to_int64 (mul (of_int bw) pc2)) bw); lia.
Qed.

Lemma View_head_never_moves_back_witness :
  exists bw f1 e1 f2 e2,
    view_segments (SetProgress (bar 80 0 0 0) 20000000000 180000000000)
    = Some (bw, f1, e1)
    /\ view_segments (SetProgress (bar 80 0 0 0) 95000000000 180000000000)
       = Some (bw, f2, e2)
    /\ f1 <= f2.
Proof.
  apply (@View_head_never_moves_back (bar 80 0 0 0) 20000000000 95000000000 180000000000).
  - cbn. unfold int64.min_int. lia.
  - lia.
Defined.

(** X13.  At the end of the track and past it ([0 < Total <= Current]),
    for a [Width] up to [2^53 + 14], the head stands on the last cell:
    [barWidth - 1] filled cells and no empty one. *)
Theorem View_track_finished p :
  0 < Total p <= Current p ->
  int64.min_int + 14 <= Width p <= 2 ^ 53 + 14 ->
  let bw := layout_width (Width p) in
  view_segments p = Some (bw, bw - 1, 0).
Proof.
  intros [Ht Hc] Hw. cbv zeta.
  assert (Hwr : int64.in_range (Width p - 14))
    by (unfold int64.in_range, int64.min_int, int64.max_int in *; lia).
  pose proof (@layout_width_plain (Width p) Hwr) as Ebw.
  pose proof (layout_width_bounds (Width p)) as Hb.
  unfold view_segments. rewrite view_percent_unfold.
  fold (layout_width (Width p)). set (bw := layout_width (Width p)) in *.
  destruct (Z.gtb_spec (Total p) 0); [| lia]. cbv zeta.
  set (q := round (of_int (Current p) / of_int (Total p))).
  assert (Hq : (1 <= q)%Q).
  { apply Qle_trans with (round 1); [now vm_compute |].
    apply round_mono. pose proof (of_int_pos Ht). pose proof (of_int_mono Hc).
    apply Qle_shift_div_l; lra. }
  set (pc := if gt q 1%Q then 1%Q else q).
  assert (Hpc : (pc == 1)%Q).
  { subst pc. destruct (Qlt_le_dec 1 q) as [H1 | H1].
    - now rewrite (gt_true H1).
    - rewrite (gt_false H1). lra. }
  assert (Hfb : (of_int bw == inject_Z bw)%Q) by (apply round_Z_exact; lia).
  assert (Ex : (mul (of_int bw) pc == inject_Z bw)%Q).
  { rewrite (mul_one_r _ Hpc), (round_comp Hfb). exact Hfb. }
  rewrite (to_int64_comp Ex), to_int64_Z
    by (unfold int64.in_range, int64.min_int, int64.max_int in *; lia).
  destruct (Z.geb_spec bw bw); [| lia].
  rewrite (@sub_one_in_range bw Hb), empty_count by lia.
  do 3 f_equal. lia.
Qed.

Lemma View_track_finished_witness :
  view_segments (bar 80 200000000000 180000000000 0) = Some (66, 65, 0).
Proof.
  apply (@View_track_finished (bar 80 200000000000 180000000000 0)).
  - cbn. lia.
  - cbn. unfold int64.min_int. lia.
Defined.
End ViewMore.

(* ================================================================== *)
(** * More on click-to-seek *)

Section ClickMore.
Import float64 time components.
Local Open Scope Z_scope.

(** A click on the right end of a laid-out bar seeks to the end of a
    track whose length is a [float64]. *)
Lemma seek_to_end p clickX barOffsetX :
  0 < barWidth p ->
  0 < Total p <= int64.max_int ->
  (of_int (Total p) == inject_Z (Total p))%Q ->
  barWidth p <= int64.sub clickX barOffsetX ->
  HandleClick p clickX barOffsetX = Some (Total p).
Proof.
  intros Hw [Ht Htmax] Hrep Hrel.
  rewrite (@HandleClick_unfold p _ _ Hw Ht).
  assert (E : clamped p clickX barOffsetX = barWidth p) by (unfold clamped; lia).
  rewrite E, (to_int64_comp (mul_one_r _ (fraction_one Hw))).
  assert (Hrt : (round (of_int (Total p)) == inject_Z (Total p))%Q)
    by (rewrite (round_comp Hrep); exact Hrep).
  rewrite (to_int64_comp Hrt), to_int64_Z; trivial.
  unfold int64.in_range, int64.min_int. lia.
Qed.

(** X14.  Click-to-seek needs a rendered bar.  On a bar fresh from
    [NewProgressBar], also after [SetProgress], every click seeks to [0],
    because [barWidth] is still [0]; once [View] has returned, a click on
    or beyond the right end of the bar it laid out seeks to [Total] (for a
    [Total > 0] that [float64] represents exactly). *)
Theorem HandleClick_needs_View
    (NewStyle : lipgloss.Style)
    (Foreground : string -> lipgloss.Style -> lipgloss.Style)
    (Bold : bool -> lipgloss.Style -> lipgloss.Style)
    width current total clickX barOffsetX :
  let fresh := SetProgress (NewProgressBar NewStyle Foreground Bold width) current total in
  HandleClick fresh clickX barOffsetX = Some 0
  /\ forall p' s,
       View fresh = Some (p', s) ->
       0 < total <= int64.max_int ->
       (of_int total == inject_Z total)%Q ->
       BarWidth p' <= int64.sub clickX barOffsetX ->
       HandleClick p' clickX barOffsetX = Some total.
Proof.
  cbv zeta. split; [reflexivity |].
  intros p' s Hv Ht Hrep Hrel.
  destruct (@View_returns _ p' s Hv) as (Ep & _).
  assert (Etot : Total p' = total) by (rewrite Ep; reflexivity).
  assert (Hb : 10 <= barWidth p')
    by (rewrite Ep; apply (layout_width_bounds width)).
  rewrite <- Etot in *. apply seek_to_end; trivial. lia.
Qed.

Lemma HandleClick_needs_View_witness :
  exists p' s,
    View (SetProgress (NewProgressBar (fun s => s) (fun _ st => st) (fun _ st => st) 80)
            30000000000 180000000000) = Some (p', s)
    /\ HandleClick p' 70 2 = Some 180000000000.
Proof.
  destruct (View (SetProgress (NewProgressBar (fun s => s) (fun _ st => st)
                                 (fun _ st => st) 80) 30000000000 180000000000))
    as [[p' s] |] eqn:E; [| vm_compute in E; discriminate].
  exists p', s. split; [reflexivity |].
  apply (proj2 (@HandleClick_needs_View (fun s => s) (fun _ st => st) (fun _ st => st)
                  80 30000000000 180000000000 70 2) p' s E).
  - unfold int64.max_int. lia.
  - vm_compute. reflexivity.
  - vm_compute in E. inversion E. vm_compute. discriminate.
Defined.

(** X15.  Click-to-seek is proportional.  For a bar of at most [2^53]
    cells and a track of at most [2^53] ns, the duration [HandleClick]
    returns is within [3] ns of [Total * relX / barWidth], where [relX] is
    the click offset clamped to the bar. *)
Theorem HandleClick_proportional p clickX barOffsetX :
  0 < barWidth p <= 2 ^ 53 ->
  0 < Total p <= 2 ^ 53 ->
  exists d,
    HandleClick p clickX barOffsetX = Some d
    /\ (seek_exact p clickX barOffsetX - 3 < inject_Z d)%Q
    /\ (inject_Z d <= seek_exact p clickX barOffsetX + 3)%Q.
Proof.
  intros [Hw Hw53] [Ht Ht53].
  rewrite (@HandleClick_unfold p _ _ Hw Ht). unfold seek_exact.
  pose proof (@clamped_bounds p clickX barOffsetX Hw) as Hr.
  set (r := clamped p clickX barOffsetX) in *.
  set (w := barWidth p) in *. set (t := Total p) in *.
  assert (Hft : (of_int t == inject_Z t)%Q) by (apply round_Z_exact; lia).
  assert (Hfr : (of_int r == inject_Z r)%Q) by (apply round_Z_exact; lia).
  assert (Hfw : (of_int w == inject_Z w)%Q) by (apply round_Z_exact; lia).
  assert (HW : (1 <= inject_Z w <= 2 ^ 53)%Q).
  { rewrite <- (pow2_inject (k := 53)) by lia.
    change 1%Q with (inject_Z 1). rewrite <- !Zle_Qle. lia. }
  assert (HT : (1 <= inject_Z t <= 2 ^ 53)%Q).
  { rewrite <- (pow2_inject (k := 53)) by lia.
    change 1%Q with (inject_Z 1). rewrite <- !Zle_Qle. lia. }
  eexists. split; [reflexivity |].
  destruct (Z.eq_dec r 0) as [Er | Er].
  - rewrite Er. rewrite (to_int64_comp (mul_zero_r _ (fraction_zero Hw))).
    change (to_int64 0%Q) with 0%Z.
    assert (E : (inject_Z t * inject_Z 0 / inject_Z w == 0)%Q) by (field; lra).
    rewrite E. split; now vm_compute.
  - assert (HR : (1 <= inject_Z r <= inject_Z w)%Q).
    { change 1%Q with (inject_Z 1). rewrite <- !Zle_Qle. lia. }
    set (q := (inject_Z r / inject_Z w)%Q).
    set (u := (2 ^ (-53))%Q).
    assert (Hu : (0 < u)%Q) by apply pow2_pos.
    assert (Hu2 : (u <= 1 # 2)%Q) by now vm_compute.
    assert (Hu53 : (u * 2 ^ 53 == 1)%Q) by now vm_compute.
    assert (Eq : (q * inject_Z w == inject_Z r)%Q) by (subst q; field; lra).
    assert (Hq : (u <= q <= 1)%Q) by (split; nra).
    assert (Hn : (2 ^ (-1022) <= 2 ^ (-54))%Q) by (apply pow2_le; lia).
    assert (Hu54 : (2 ^ (-54) * 2 == u)%Q) by now vm_compute.
    assert (Epq : (of_int r / of_int w == q)%Q) by (subst q; now rewrite Hfr, Hfw).
    destruct (@round_error q ltac:(fold u in Hu54; lra)) as [P1 P2].
    rewrite <- (round_comp Epq) in P1, P2.
    set (pq := round (of_int r / of_int w)) in *. fold u in P1, P2.
    assert (Ex : (of_int t * pq == inject_Z t * pq)%Q) by now rewrite Hft.
    assert (Hx : (inject_Z t * q - inject_Z t * q * u <= inject_Z t * pq
                  <= inject_Z t * q + inject_Z t * q * u)%Q) by (split; nra).
    assert (HE : (0 <= inject_Z t * q * u <= 1)%Q) by (split; nra).
    assert (HEq : (u <= inject_Z t * q)%Q) by nra.
    destruct (@round_error (inject_Z t * pq) ltac:(nra)) as [X1 X2].
    rewrite <- (round_comp Ex) in X1, X2. fold u in X1, X2.
    change (round (of_int t * pq)) with (mul (of_int t) pq) in X1, X2.
    destruct (seek_bounds (t := t) ltac:(lia) Hr Hw) as [Hlo Hhi].
    fold pq in Hlo, Hhi.
    assert (Hrt : (round (of_int t) == inject_Z t)%Q)
      by (rewrite (round_comp Hft); exact Hft).
    rewrite Hrt in Hhi.
    destruct (to_int64_in_range (lo := 0) (hi := t) Hlo Hhi) as [Hconv _];
      [unfold int64.min_int; lia | unfold int64.max_int; lia |].
    rewrite Hconv. destruct (trunc_nonneg Hlo) as [T1 T2].
    assert (Ee : (inject_Z t * inject_Z r / inject_Z w == inject_Z t * q)%Q)
      by (subst q; field; lra).
    rewrite Ee.
    set (X := mul (of_int t) pq) in *. set (E := (inject_Z t * q)%Q) in *.
    set (x := (inject_Z t * pq)%Q) in *.
    split; nra.
Qed.

Lemma HandleClick_proportional_witness :
  exists d,
    HandleClick (bar 80 0 180000000000 66) 35 2 = Some d
    /\ (seek_exact (bar 80 0 180000000000 66) 35 2 - 3 < inject_Z d)%Q
    /\ (inject_Z d <= seek_exact (bar 80 0 180000000000 66) 35 2 + 3)%Q.
Proof.
  apply (@HandleClick_proportional (bar 80 0 180000000000 66) 35 2); cbn; lia.
Defined.
End ClickMore.

(* ================================================================== *)
(** * More on the time display *)

Section FormatMore.
Import time fmt components.
Local Open Scope Z_scope.

Lemma pad02d_length z :
  0 <= z < 1000 -> (2 <= String.length (pad02d z) <= 3)%nat.
Proof.
  intros [Hz Hlt]. destruct (@pad02d_spec z Hz) as (_ & L2 & Lsmall).
  split; [exact L2 |].
  destruct (Z.lt_ge_cases z 100) as [H | H]; [rewrite (Lsmall H); lia |].
  unfold pad02d. destruct (Z.ltb_spec z 0); [lia |]. rewrite Z.abs_eq by lia.
  destruct (itoa_spec Hz) as (_ & _ & Lk & Ltwo).
  pose proof (Lk 2%nat Hlt) as L3. pose proof (Ltwo ltac:(lia)) as L2'.
  replace (2 - String.length (itoa z))%nat with 0%nat by lia. exact L3.
Qed.

(** The display of a duration under a thousand minutes. *)
Lemma formatDuration_length d :
  0 <= d < 59999500000000 ->
  (5 <= String.length (formatDuration d) <= 6)%nat
  /\ (d < 5999500000000 -> String.length (formatDuration d) = 5%nat).
Proof.
  intros Hd. unfold formatDuration. rewrite Round_Second by lia.
  set (secs := (d + 500000000) / 1000000000).
  assert (Hs : 0 <= secs < 60000).
  { subst secs. split; [apply Z.div_pos; lia |].
    apply Z.div_lt_upper_bound; lia. }
  rewrite (@format_seconds (secs * 1000000000) secs) by lia.
  rewrite !length_append. cbn [String.length].
  assert (Hm : 0 <= secs / 60 < 1000).
  { split; [apply Z.div_pos; lia | apply Z.div_lt_upper_bound; lia]. }
  pose proof (pad02d_length Hm) as Lm.
  pose proof (Z.mod_pos_bound secs 60 ltac:(lia)) as Hmod.
  destruct (@pad02d_spec (secs mod 60) ltac:(lia)) as (_ & _ & Ls).
  rewrite (Ls ltac:(lia)). split; [lia |].
  intros Hsmall.
  assert (Hm' : secs / 60 < 100).
  { apply Z.div_lt_upper_bound; [lia |]. subst secs.
    apply Z.div_lt_upper_bound; lia. }
  destruct (@pad02d_spec (secs / 60) ltac:(lia)) as (_ & _ & Lm').
  rewrite (Lm' Hm'). reflexivity.
Qed.

(** X16.  The [14] columns [View] sets aside for the time are enough for
    positions and track lengths under a thousand minutes (and [12] are
    used under a hundred minutes); with them, a bar of [Width >= 24] takes
    [Width - 14] cells, so the cells of the bar and the characters of the
    time together stay within [Width].  A narrower [Width] still gets
    [10] cells: with the time shown, under a hundred minutes, cells and
    time make [22] whatever [Width] is. *)
Theorem View_time_fits_reserved_columns p :
  0 <= Current p < 59999500000000 ->
  0 <= Total p < 59999500000000 ->
  (String.length (time_display p) <= 14)%nat
  /\ (Current p < 5999500000000 -> Total p < 5999500000000 -> ShowTime p = true ->
      String.length (time_display p) = 12%nat)
  /\ (24 <= Width p <= int64.max_int ->
      layout_width (Width p) + 14 = Width p
      /\ layout_width (Width p) + Z.of_nat (String.length (time_display p)) <= Width p)
  /\ (int64.min_int + 14 <= Width p < 24 ->
      layout_width (Width p) = 10
      /\ (Current p < 5999500000000 -> Total p < 5999500000000 -> ShowTime p = true ->
          layout_width (Width p) + Z.of_nat (String.length (time_display p)) = 22)).
Proof.
  intros Hc Ht.
  destruct (formatDuration_length Hc) as [Lc Lc5].
  destruct (formatDuration_length Ht) as [Lt Lt5].
  assert (L14 : (String.length (time_display p) <= 14)%nat).
  { unfold time_display. destruct (ShowTime p); [| cbn; lia].
    rewrite !length_append. cbn [String.length]. lia. }
  assert (L12 : Current p < 5999500000000 -> Total p < 5999500000000 ->
                ShowTime p = true -> String.length (time_display p) = 12%nat).
  { intros H1 H2 Hs. unfold time_display. rewrite Hs.
    rewrite !length_append. cbn [String.length].
    rewrite (Lc5 H1), (Lt5 H2). reflexivity. }
  split; [exact L14 |]. split; [exact L12 |]. split.
  - intros Hw. rewrite layout_width_plain
      by (unfold int64.in_range, int64.min_int, int64.max_int in *; lia).
    lia.
  - intros Hw. rewrite layout_width_plain
      by (unfold int64.in_range, int64.min_int, int64.max_int in *; lia).
    split; [lia |]. intros H1 H2 Hs. rewrite (L12 H1 H2 Hs). lia.
Qed.

Lemma View_time_fits_reserved_columns_witness :
  (String.length (time_display (bar 80 30000000000 180000000000 0)) <= 14)%nat
  /\ String.length (time_display (bar 80 30000000000 180000000000 0)) = 12%nat
  /\ layout_width 80 + 14 = 80
  /\ layout_width 20
     + Z.of_nat (String.length (time_display (bar 20 30000000000 180000000000 0)))
     = 22.
Proof.
  destruct (@View_time_fits_reserved_columns (bar 80 30000000000 180000000000 0))
    as (H1 & H2 & H3 & _); [cbn; lia | cbn; lia |].
  destruct (@View_time_fits_reserved_columns (bar 20 30000000000 180000000000 0))
    as (_ & _ & _ & H4); [cbn; lia | cbn; lia |].
  split; [exact H1 |]. split; [apply H2; cbn; trivial; lia |].
  split; [apply H3; cbn; unfold int64.max_int; lia |].
  apply H4; cbn; trivial; unfold int64.min_int; lia.
Defined.

(** [Round] to the second on a negative duration whose rounded value fits:
    the mirror image of the non-negative case. *)
Lemma Round_Second_negative d :
  0 < d < 9223372036500000000 ->
  Round (- d) Second = - ((d + 500000000) / 1000000000 * 1000000000).
Proof.
  intros Hd.
  unfold Round, Second, lessThanHalf, int64.to_uint64, int64.sub, int64.add,
    int64.neg, int64.wrap, minDuration.
  change (1000000000 <=? 0) with false. cbv iota.
  rewrite Z.rem_opp_l, Z.rem_mod_nonneg by lia.
  destruct (Z.ltb_spec (- d) 0); [| lia].
  pose proof (Z.mod_pos_bound d 1000000000 ltac:(lia)) as Hr.
  pose proof (Z.div_mod d 1000000000 ltac:(lia)) as Hdm.
  set (r := d mod 1000000000) in *.
  replace (- - r + 2 ^ 63) with (r + 2 ^ 63) by lia.
  rewrite (Z.mod_small (r + 2 ^ 63)) by lia.
  replace (r + 2 ^ 63 - 2 ^ 63) with r by lia.
  rewrite (Z.mod_small r), (Z.mod_small 1000000000), (Z.mod_small (r + r)) by lia.
  destruct (Z.ltb_spec (r + r) 1000000000).
  - rewrite Z.mod_small by lia.
    assert ((d + 500000000) / 1000000000 = d / 1000000000)
      by (symmetry; apply Z.div_unique with (r + 500000000); lia).
    lia.
  - assert (Hq : (d + 500000000) / 1000000000 = d / 1000000000 + 1)
      by (symmetry; apply Z.div_unique with (r - 500000000); lia).
    rewrite Hq.
    replace ((- d - 1000000000 + 2 ^ 63) mod 2 ^ 64 - 2 ^ 63 + r + 2 ^ 63)
      with ((- d - 1000000000 + 2 ^ 63) mod 2 ^ 64 + r) by lia.
    rewrite Zplus_mod_idemp_l.
    destruct (Z.le_gt_cases 0 (- d - 1000000000 + 2 ^ 63 + r)) as [Hpos | Hneg].
    + rewrite Z.mod_small by lia.
      destruct (Z.ltb_spec (- d - 1000000000 + 2 ^ 63 + r - 2 ^ 63) (- d)); lia.
    + exfalso. lia.
Qed.

Lemma pad02d_negative z :
  0 < z -> pad02d (- z) = ("-" ++ itoa z)%string.
Proof.
  intros Hz. unfold pad02d. destruct (Z.ltb_spec (- z) 0); [| lia].
  rewrite Z.abs_opp, Z.abs_eq by lia.
  destruct (@itoa_spec z ltac:(lia)) as (_ & L1 & _).
  now replace (1 - String.length (itoa z))%nat with 0%nat by lia.
Qed.

(** X17.  A negative duration is not shown with one sign in front: each
    field that is not zero gets its own minus sign and loses its zero
    padding, a zero field stays [00].  So [-90] s reads [-1:-30] and
    [-30] s reads [00:-30]. *)
Theorem formatDuration_negative d :
  0 < d < 9223372036500000000 ->
  let secs := (d + 500000000) / 1000000000 in
  let field z := if z =? 0 then "00"%string else ("-" ++ itoa z)%string in
  formatDuration (- d) = (field (secs / 60) ++ ":" ++ field (secs mod 60))%string.
Proof.
  intros Hd. cbv zeta. unfold formatDuration.
  rewrite (Round_Second_negative Hd).
  set (secs := (d + 500000000) / 1000000000).
  assert (Hs : 0 <= secs) by (subst secs; apply Z.div_pos; lia).
  unfold Minute, Second. change (60 * 1000000000) with 60000000000.
  rewrite Z.rem_opp_l, !Z.quot_opp_l by lia.
  pose proof (Z.div_mod secs 60 ltac:(lia)) as Hdm.
  pose proof (Z.mod_pos_bound secs 60 ltac:(lia)) as Hm.
  assert (Hq : 0 <= secs / 60) by (apply Z.div_pos; lia).
  rewrite Z.rem_mod_nonneg, !Z.quot_div_nonneg
    by (try apply Z.mod_pos_bound; lia).
  assert (E1 : secs * 1000000000 / 60000000000 = secs / 60).
  { symmetry. apply Z.div_unique with ((secs mod 60) * 1000000000); lia. }
  assert (E2 : (secs * 1000000000) mod 60000000000 = (secs mod 60) * 1000000000).
  { symmetry. apply Z.mod_unique with (secs / 60); lia. }
  rewrite E1, E2, Z.div_mul by lia.
  f_equal; [| f_equal].
  - destruct (Z.eqb_spec (secs / 60) 0) as [-> | Hn]; [reflexivity |].
    apply pad02d_negative. lia.
  - destruct (Z.eqb_spec (secs mod 60) 0) as [-> | Hn]; [reflexivity |].
    apply pad02d_negative. lia.
Qed.

Lemma formatDuration_negative_witness :
  formatDuration (- 90000000000) = "-1:-30"%string
  /\ formatDuration (- 30000000000) = "00:-30"%string.
Proof.
  split.
  - apply (@formatDuration_negative 90000000000). lia.
  - apply (@formatDuration_negative 30000000000). lia.
Defined.
End FormatMore.
